(** * Gemini live translator: transcript reconciler, session client, audio codecs

    A shallow embedding of the TypeScript sources

      - the [App] component ([handleTranscriptUpdate], the transcript
        reducer),
      - [services/liveClient.ts] ([GeminiLiveClient.handleOnMessage]),
      - [utils.ts] ([decodeBase64], [encodeBase64], [decodeAudioData],
        [downsampleTo16k], [createPcmBlob]),

    together with the properties of the design document that concern them
    (C1 to C10). *)

From Stdlib Require Import List Bool Arith ZArith NArith Lia.
From Stdlib Require Import Ascii String DecimalString DecimalZ.
From Stdlib Require Import QArith Qround Qabs Lqa.
From Stdlib Require Floats Uint63.
Close Scope Q_scope.
Import ListNotations.

Set Implicit Arguments.

(** ** JavaScript strings

    A JavaScript string is a finite sequence of UTF-16 code units.  The
    reducer below trims, compares and tests prefixes code unit by code unit,
    so that is the representation kept here. *)

Module JS.

Definition code_unit := N.
Definition jsstring := list code_unit.

(** [js "abc"] is the JavaScript string literal with those ASCII characters. *)
Definition js (s : string) : jsstring :=
  map N_of_ascii (list_ascii_of_string s).

(** WhiteSpace and LineTerminator code points of ECMA-262 (all of them lie in
    the basic plane): what [String.prototype.trim] strips. *)
Definition isWhiteSpace (c : code_unit) : bool :=
  ((9 <=? c) && (c <=? 13)          (* TAB, LF, VT, FF, CR *)
   || (c =? 32) || (c =? 160)      (* SP, NBSP *)
   || (c =? 5760)                  (* U+1680 *)
   || (8192 <=? c) && (c <=? 8202) (* U+2000 .. U+200A *)
   || (c =? 8232) || (c =? 8233)   (* LS, PS *)
   || (c =? 8239) || (c =? 8287)   (* U+202F, U+205F *)
   || (c =? 12288)                 (* U+3000 *)
   || (c =? 65279))%N.             (* U+FEFF *)

Fixpoint trimStart (s : jsstring) : jsstring :=
  match s with
  | [] => []
  | c :: r => if isWhiteSpace c then trimStart r else s
  end.

Definition trimEnd (s : jsstring) : jsstring := rev (trimStart (rev s)).

(** [s.trim()] *)
Definition trim (s : jsstring) : jsstring := trimEnd (trimStart s).

(** ToBoolean on a string: the empty string is the only falsy one. *)
Definition truthy (s : jsstring) : bool :=
  match s with [] => false | _ :: _ => true end.

(** [s.startsWith(search)] *)
Fixpoint startsWith (s search : jsstring) {struct search} : bool :=
  match search with
  | [] => true
  | c :: search' =>
      match s with
      | [] => false
      | d :: s' => (d =? c)%N && startsWith s' search'
      end
  end.

(** [a === b] on strings *)
Definition streq (a b : jsstring) : bool :=
  if list_eq_dec N.eq_dec a b then true else false.

(** [a + b] on strings *)
Definition concat (a b : jsstring) : jsstring := a ++ b.

(** [n.toString()] for an integral number below 1e21 in magnitude: the
    decimal digits, with a leading minus sign for a negative one. *)
Definition toString (n : Z) : jsstring :=
  js (NilZero.string_of_int (Z.to_int n)).

(** *** Logical readings used in statements *)

Definition whitespace_only (s : jsstring) : Prop :=
  Forall (fun c => isWhiteSpace c = true) s.

Definition is_prefix (p s : jsstring) : Prop := exists rest, s = p ++ rest.

Lemma trimStart_nil_iff s : trimStart s = [] <-> whitespace_only s.
Proof.
  unfold whitespace_only; induction s as [|c r IH]; simpl.
  - split; intros; [constructor | reflexivity].
  - destruct (isWhiteSpace c) eqn:E.
    + rewrite IH; split; intro H.
      * constructor; assumption.
      * inversion H; assumption.
    + split; intro H; [discriminate|].
      inversion H; congruence.
Qed.

Lemma trim_nil_iff s : trim s = [] <-> whitespace_only s.
Proof.
  unfold trim, trimEnd; split.
  - intro H.
    destruct (trimStart s) as [|c r] eqn:E.
    + apply trimStart_nil_iff; assumption.
    + exfalso.
      assert (Hr : trimStart (rev (c :: r)) = []).
      { destruct (trimStart (rev (c :: r))); [reflexivity|].
        simpl in H; apply (f_equal (@List.length _)) in H.
        rewrite length_app in H; simpl in H; lia. }
      apply trimStart_nil_iff in Hr.
      assert (Hc : isWhiteSpace c = true).
      { unfold whitespace_only in Hr; rewrite Forall_forall in Hr.
        apply Hr, in_rev; rewrite rev_involutive; left; reflexivity. }
      clear -E Hc; induction s as [|d s IH]; simpl in E; [discriminate|].
      destruct (isWhiteSpace d) eqn:Ed; [auto|].
      inversion E; congruence.
  - intro H; apply trimStart_nil_iff in H; rewrite H; reflexivity.
Qed.

Lemma truthy_trim_false_iff s : truthy (trim s) = false <-> whitespace_only s.
Proof.
  rewrite <- trim_nil_iff; destruct (trim s); simpl; split;
    intros; congruence.
Qed.

Lemma startsWith_iff s p : startsWith s p = true <-> is_prefix p s.
Proof.
  unfold is_prefix; revert s; induction p as [|c p IH]; intros s; simpl.
  - split; [intros _; exists s; reflexivity | intros _; reflexivity].
  - destruct s as [|d s].
    + split; [discriminate | intros [r Hr]; discriminate].
    + rewrite andb_true_iff, N.eqb_eq, IH; split.
      * intros [-> [r ->]]; exists r; reflexivity.
      * intros [r Hr]; inversion Hr; subst; split; [reflexivity | eauto].
Qed.

Lemma streq_iff a b : streq a b = true <-> a = b.
Proof.
  unfold streq; destruct (list_eq_dec N.eq_dec a b); split;
    intros; congruence.
Qed.

Lemma js_inj a b : js a = js b -> a = b.
Proof.
  unfold js; revert b; induction a as [|x a IH]; intros [|y b] H;
    simpl in H; try discriminate; [reflexivity|].
  inversion H as [[Hx Ht]].
  apply (f_equal ascii_of_N) in Hx; rewrite !ascii_N_embedding in Hx.
  f_equal; auto.
Qed.

Lemma to_int_not_nil z : Z.to_int z <> Decimal.Pos Decimal.Nil
                          /\ Z.to_int z <> Decimal.Neg Decimal.Nil.
Proof.
  split; intro H; pose proof (f_equal Z.of_int H) as H';
    rewrite DecimalZ.of_to in H'; subst z; discriminate H.
Qed.

Lemma toString_inj m n : toString m = toString n -> m = n.
Proof.
  unfold toString; intro H; apply js_inj in H.
  apply DecimalZ.to_int_inj.
  assert (E : NilZero.int_of_string (NilZero.string_of_int (Z.to_int m))
            = NilZero.int_of_string (NilZero.string_of_int (Z.to_int n)))
    by (rewrite H; reflexivity).
  rewrite !NilZero.isi in E by apply to_int_not_nil.
  inversion E; reflexivity.
Qed.

End JS.

(** ** The transcript reducer (the [App] component, [handleTranscriptUpdate])

    [setTranscripts (prev => ...)] is a pure function of the previous array;
    the only ambient input is the wall clock.  [Date.now ()] is read once in
    the two branches that rewrite the last item and twice in the branch that
    appends (first for [id], then for [timestamp]); the two readings are the
    arguments [now1] and [now2]. *)

Module Transcript.
Import JS.

Inductive Source := user | model.

Definition Source_eqb (a b : Source) : bool :=
  match a, b with
  | user, user | model, model => true
  | _, _ => false
  end.

Lemma Source_eqb_iff a b : Source_eqb a b = true <-> a = b.
Proof. destruct a, b; simpl; split; intros; congruence. Qed.

Record TranscriptItem := {
  id : jsstring;
  source : Source;
  text : jsstring;
  timestamp : Z;
  isComplete : bool
}.

(** [prev[prev.length - 1]]: [undefined] on the empty array. *)
Definition lastItem (prev : list TranscriptItem) : option TranscriptItem :=
  match rev prev with
  | [] => None
  | l :: _ => Some l
  end.

(** [updated = [...prev]; updated[updated.length - 1] = item] on a non-empty
    array. *)
Definition setLast (prev : list TranscriptItem) (item : TranscriptItem) :=
  removelast prev ++ [item].

(** [{...lastItem, text, isComplete, timestamp: Date.now()}] *)
Definition rewritten (l : TranscriptItem) (t : jsstring) (c : bool) (now : Z) :=
  {| id := id l; source := source l; text := t;
     timestamp := now; isComplete := c |}.

(** The object literal of the appending branch. *)
Definition fresh (now1 now2 : Z) (s : Source) (t : jsstring) (c : bool) :=
  {| id := toString now1; source := s; text := t;
     timestamp := now2; isComplete := c |}.

Definition currentSource (isUser : bool) : Source :=
  if isUser then user else model.

Definition handleTranscriptUpdate (now1 now2 : Z)
    (text' : jsstring) (isUser isComplete' : bool)
    (prev : list TranscriptItem) : list TranscriptItem :=
  let appended :=
    prev ++ [fresh now1 now2 (currentSource isUser) text' isComplete'] in
  if negb (truthy (trim text')) then prev
  else
    match lastItem prev with
    | None => appended
    | Some l =>
        (* Case 1: existing incomplete message *)
        if Source_eqb (source l) (currentSource isUser)
           && negb (isComplete l)
        then setLast prev (rewritten l text' isComplete' now1)
        (* Case 2: deduplication against a completed message *)
        else if Source_eqb (source l) (currentSource isUser)
                && isComplete l
        then
          if streq (text l) text' then prev
          else if startsWith (text l) text' then prev
          else if startsWith text' (text l)
          then setLast prev (rewritten l text' isComplete' now1)
          else appended
        (* Case 3: a new bubble *)
        else appended
    end.

(** One call of the [onTranscriptUpdate] callback, with the clock readings
    its reducer will see. *)
Record Update := {
  u_text : jsstring;
  u_isUser : bool;
  u_isComplete : bool;
  u_now1 : Z;
  u_now2 : Z
}.

Definition apply_update (prev : list TranscriptItem) (u : Update) :=
  handleTranscriptUpdate (u_now1 u) (u_now2 u)
    (u_text u) (u_isUser u) (u_isComplete u) prev.

(** The transcript array after a series of updates, starting from
    [useState<TranscriptItem[]>([])]. *)
Definition run (us : list Update) : list TranscriptItem :=
  fold_left apply_update us [].

(** *** The upsert rule, as the design document words it

    [upsert_rule now1 now2 T speaker flag prev next]: rules 1, 2, 3a-3d and 4
    of the document, one constructor each (rule 4 once per way of reaching
    it). *)
Inductive upsert_rule (now1 now2 : Z) (T : jsstring) (speaker : Source)
    (flag : bool) : list TranscriptItem -> list TranscriptItem -> Prop :=
| rule1_blank prev :
    whitespace_only T ->
    upsert_rule now1 now2 T speaker flag prev prev
| rule2_continue items L :
    ~ whitespace_only T ->
    source L = speaker -> isComplete L = false ->
    upsert_rule now1 now2 T speaker flag
      (items ++ [L]) (items ++ [rewritten L T flag now1])
| rule3a_exact items L :
    ~ whitespace_only T ->
    source L = speaker -> isComplete L = true ->
    T = text L ->
    upsert_rule now1 now2 T speaker flag (items ++ [L]) (items ++ [L])
| rule3b_prefix items L :
    ~ whitespace_only T ->
    source L = speaker -> isComplete L = true ->
    is_prefix T (text L) ->
    upsert_rule now1 now2 T speaker flag (items ++ [L]) (items ++ [L])
| rule3c_reopen items L :
    ~ whitespace_only T ->
    source L = speaker -> isComplete L = true ->
    ~ is_prefix T (text L) -> is_prefix (text L) T ->
    upsert_rule now1 now2 T speaker flag
      (items ++ [L]) (items ++ [rewritten L T flag now1])
| rule4_unrelated items L :
    ~ whitespace_only T ->
    source L = speaker -> isComplete L = true ->
    ~ is_prefix T (text L) -> ~ is_prefix (text L) T ->
    upsert_rule now1 now2 T speaker flag
      (items ++ [L]) (items ++ [L] ++ [fresh now1 now2 speaker T flag])
| rule4_other_speaker items L :
    ~ whitespace_only T ->
    source L <> speaker ->
    upsert_rule now1 now2 T speaker flag
      (items ++ [L]) (items ++ [L] ++ [fresh now1 now2 speaker T flag])
| rule4_first :
    ~ whitespace_only T ->
    upsert_rule now1 now2 T speaker flag
      [] [fresh now1 now2 speaker T flag].

Lemma lastItem_snoc items L : lastItem (items ++ [L]) = Some L.
Proof. unfold lastItem; rewrite rev_app_distr; reflexivity. Qed.

Lemma lastItem_cases prev :
  (prev = [] /\ lastItem prev = None)
  \/ exists items L, prev = items ++ [L] /\ lastItem prev = Some L.
Proof.
  destruct prev as [|x prev]; [left; split; reflexivity | right].
  destruct (@exists_last _ (x :: prev)) as [items [L E]]; [discriminate|].
  exists items, L; rewrite E; split; [reflexivity | apply lastItem_snoc].
Qed.

Lemma setLast_snoc items L item : setLast (items ++ [L]) item = items ++ [item].
Proof. unfold setLast; rewrite removelast_last; reflexivity. Qed.

Lemma snoc_inj (A : Type) (l l' : list A) (a a' : A) :
  l ++ [a] = l' ++ [a'] -> l = l' /\ a = a'.
Proof. intro H; apply app_inj_tail in H; exact H. Qed.

(** The three boolean tests of the reducer, read logically. *)
Lemma blank_test T : negb (truthy (trim T)) = true <-> whitespace_only T.
Proof. rewrite negb_true_iff; apply truthy_trim_false_iff. Qed.

Lemma blank_test_false T : negb (truthy (trim T)) = false <-> ~ whitespace_only T.
Proof.
  rewrite <- blank_test; destruct (negb (truthy (trim T))); split;
    intros; congruence.
Qed.

Lemma startsWith_false_iff s p : startsWith s p = false <-> ~ is_prefix p s.
Proof.
  rewrite <- startsWith_iff; destruct (startsWith s p); split;
    intros; congruence.
Qed.

Lemma streq_false_iff a b : streq a b = false <-> a <> b.
Proof.
  rewrite <- streq_iff; destruct (streq a b); split; intros; congruence.
Qed.

Lemma is_prefix_refl s : is_prefix s s.
Proof. exists []; symmetry; apply app_nil_r. Qed.

(** The reducer follows the upsert rule. *)
Lemma handleTranscriptUpdate_sound now1 now2 T isUser flag prev :
  upsert_rule now1 now2 T (currentSource isUser) flag prev
    (handleTranscriptUpdate now1 now2 T isUser flag prev).
Proof.
  unfold handleTranscriptUpdate.
  destruct (negb (truthy (trim T))) eqn:Eb.
  { apply rule1_blank, blank_test, Eb. }
  apply blank_test_false in Eb.
  destruct (lastItem_cases prev) as [[-> ->] | [items [L [-> ->]]]].
  { apply rule4_first, Eb. }
  rewrite setLast_snoc, <- app_assoc.
  destruct (Source_eqb (source L) (currentSource isUser)) eqn:Es; simpl.
  - apply Source_eqb_iff in Es.
    destruct (isComplete L) eqn:Ec; simpl.
    + destruct (streq (text L) T) eqn:E1.
      { apply rule3a_exact; auto. symmetry; apply streq_iff, E1. }
      destruct (startsWith (text L) T) eqn:E2.
      { apply rule3b_prefix; auto. apply startsWith_iff, E2. }
      apply startsWith_false_iff in E2.
      destruct (startsWith T (text L)) eqn:E3.
      { apply rule3c_reopen; auto. apply startsWith_iff, E3. }
      apply startsWith_false_iff in E3.
      apply rule4_unrelated; auto.
    + apply rule2_continue; auto.
  - apply rule4_other_speaker; auto.
    intro H; apply Source_eqb_iff in H; congruence.
Qed.



(** *** The reconciler scenarios of the design document *)

Definition finalized (t : string) : TranscriptItem :=
  {| id := js "1"; source := user; text := js t;
     timestamp := 1; isComplete := true |}.

Example exact_duplicate_suppressed :
  handleTranscriptUpdate 2 2 (js "Hello") true true [finalized "Hello"]
  = [finalized "Hello"].
Proof. reflexivity. Qed.

Example prefix_suppressed :
  handleTranscriptUpdate 2 2 (js "Hello") true true [finalized "Hello World"]
  = [finalized "Hello World"].
Proof. reflexivity. Qed.

Example superset_reopens :
  handleTranscriptUpdate 2 3 (js "Hello World") true true [finalized "Hello"]
  = [rewritten (finalized "Hello") (js "Hello World") true 2].
Proof. reflexivity. Qed.

Example unrelated_appends :
  handleTranscriptUpdate 2 3 (js "Goodbye") true true [finalized "Hello"]
  = [finalized "Hello"; fresh 2 3 user (js "Goodbye") true].
Proof. reflexivity. Qed.

(** *** What one update can do to the array *)

Lemma apply_update_shape prev u :
  apply_update prev u = prev
  \/ (exists items L,
        prev = items ++ [L]
        /\ apply_update prev u
           = items ++ [rewritten L (u_text u) (u_isComplete u) (u_now1 u)])
  \/ apply_update prev u
     = prev ++ [fresh (u_now1 u) (u_now2 u) (currentSource (u_isUser u))
                  (u_text u) (u_isComplete u)].
Proof.
  unfold apply_update.
  pose proof (handleTranscriptUpdate_sound (u_now1 u) (u_now2 u) (u_text u)
                (u_isUser u) (u_isComplete u) prev) as H.
  remember (handleTranscriptUpdate _ _ _ _ _ prev) as next eqn:E; clear E.
  destruct H;
    [ left | right; left | left | left | right; left
    | right; right | right; right | right; right ];
    rewrite <- ?app_assoc; eauto.
Qed.

Lemma run_snoc us u : run (us ++ [u]) = apply_update (run us) u.
Proof. unfold run; rewrite fold_left_app; reflexivity. Qed.

Lemma run_app us us' : run (us ++ us') = fold_left apply_update us' (run us).
Proof. unfold run; apply fold_left_app. Qed.

(** *** Incomplete items (C4) *)

(** The invariant as the design document states it: an incomplete item has
    no later item of its own speaker. *)
Definition final_per_speaker (items : list TranscriptItem) : Prop :=
  forall pre L post,
    items = pre ++ L :: post ->
    isComplete L = false ->
    forall M, In M post -> source M <> source L.

(** What the reducer maintains instead: an incomplete item is the last of
    the array or is directly followed by an item of the other speaker. *)
Definition incomplete_guarded (items : list TranscriptItem) : Prop :=
  forall pre L M post,
    items = pre ++ L :: M :: post ->
    isComplete L = false ->
    source M <> source L.

Definition upd (t : string) (isUser c : bool) (now : Z) : Update :=
  {| u_text := js t; u_isUser := isUser; u_isComplete := c;
     u_now1 := now; u_now2 := now |}.

(** A user delta, a model delta, and a further user delta: the second user
    item is appended while the first is still incomplete. *)
Definition interleaved : list Update :=
  [upd "a" true false 1; upd "b" false false 2; upd "ab" true false 3].

Lemma incomplete_guarded_snoc items x :
  incomplete_guarded items ->
  (forall L, lastItem items = Some L ->
             isComplete L = false -> source x <> source L) ->
  incomplete_guarded (items ++ [x]).
Proof.
  intros Hinv Hlast pre L M post E Hc.
  destruct (lastItem_cases post) as [[-> _] | [post' [Z [-> _]]]].
  - change (pre ++ [L; M]) with (pre ++ [L] ++ [M]) in E.
    rewrite app_assoc in E; apply snoc_inj in E; destruct E as [-> ->].
    apply Hlast; [apply lastItem_snoc | exact Hc].
  - change (pre ++ L :: M :: post' ++ [Z])
      with (pre ++ (L :: M :: post') ++ [Z]) in E.
    rewrite app_assoc in E; apply snoc_inj in E; destruct E as [-> _].
    eapply Hinv; [reflexivity | exact Hc].
Qed.

Lemma incomplete_guarded_unsnoc items x :
  incomplete_guarded (items ++ [x]) -> incomplete_guarded items.
Proof.
  intros Hinv pre L M post E Hc.
  apply (Hinv pre L M (post ++ [x])); [|exact Hc].
  rewrite E, <- app_assoc; reflexivity.
Qed.

Lemma incomplete_guarded_relast items L L' :
  source L' = source L ->
  incomplete_guarded (items ++ [L]) ->
  incomplete_guarded (items ++ [L']).
Proof.
  intros Hs Hinv.
  apply incomplete_guarded_snoc.
  - eapply incomplete_guarded_unsnoc, Hinv.
  - intros K HK Hc.
    destruct (lastItem_cases items) as [[-> _] | [items' [K' [-> E]]]];
      [discriminate|].
    rewrite E in HK; inversion HK; subst K'.
    rewrite Hs.
    apply (Hinv items' K L []); [|exact Hc].
    rewrite <- app_assoc; reflexivity.
Qed.

Lemma apply_update_guarded prev u :
  incomplete_guarded prev -> incomplete_guarded (apply_update prev u).
Proof.
  unfold apply_update.
  pose proof (handleTranscriptUpdate_sound (u_now1 u) (u_now2 u) (u_text u)
                (u_isUser u) (u_isComplete u) prev) as H.
  remember (handleTranscriptUpdate _ _ _ _ _ prev) as next eqn:E; clear E.
  destruct H; intro Hinv; try exact Hinv.
  - eapply incomplete_guarded_relast; [|exact Hinv]; reflexivity.
  - eapply incomplete_guarded_relast; [|exact Hinv]; reflexivity.
  - rewrite app_assoc; apply incomplete_guarded_snoc; [exact Hinv|].
    intros K HK Hc; rewrite lastItem_snoc in HK; inversion HK; congruence.
  - rewrite app_assoc; apply incomplete_guarded_snoc; [exact Hinv|].
    intros K HK Hc; rewrite lastItem_snoc in HK; inversion HK; subst K.
    simpl; congruence.
  - intros [|? [|? ?]] L M post E; discriminate E.
Qed.

Lemma fold_guarded us : forall prev,
  incomplete_guarded prev ->
  incomplete_guarded (fold_left apply_update us prev).
Proof.
  induction us as [|u us IH]; intros prev H; simpl; [exact H|].
  apply IH, apply_update_guarded, H.
Qed.

(** Items that already have a successor are out of the reducer's reach. *)
Definition frozen (F cur : list TranscriptItem) : Prop :=
  exists tail, cur = F ++ tail /\ tail <> [].

Lemma apply_update_frozen F prev u :
  frozen F prev -> frozen F (apply_update prev u).
Proof.
  intros [tail [-> Hne]].
  destruct (lastItem_cases tail) as [[-> _] | [t' [x [-> _]]]];
    [congruence|].
  destruct (apply_update_shape (F ++ t' ++ [x]) u)
    as [-> | [[items [L [E ->]]] | ->]].
  - exists (t' ++ [x]); split; [reflexivity | exact Hne].
  - rewrite app_assoc in E; apply snoc_inj in E; destruct E as [<- _].
    eexists; rewrite <- app_assoc; split; [reflexivity|].
    intro H; apply app_eq_nil in H; destruct H; discriminate.
  - eexists; rewrite <- app_assoc; split; [reflexivity|].
    intro H; apply app_eq_nil in H; destruct H as [H _].
    apply app_eq_nil in H; destruct H; discriminate.
Qed.

Lemma fold_frozen F us : forall prev,
  frozen F prev -> frozen F (fold_left apply_update us prev).
Proof.
  induction us as [|u us IH]; intros prev H; simpl; [exact H|].
  apply IH, apply_update_frozen, H.
Qed.

Example run_interleaved :
  run interleaved
  = [fresh 1 1 user (js "a") false;
     fresh 2 2 model (js "b") false;
     fresh 3 3 user (js "ab") false].
Proof. reflexivity. Qed.

(** C4, as stated, fails: after a user delta, a model delta and another user
    delta, the first user item is still incomplete although a later user item
    exists. *)
Lemma final_per_speaker_not_invariant :
  ~ (forall us, final_per_speaker (run us)).
Proof.
  intro H.
  apply (H interleaved [] (fresh 1 1 user (js "a") false)
           [fresh 2 2 model (js "b") false; fresh 3 3 user (js "ab") false]
           run_interleaved eq_refl
           (fresh 3 3 user (js "ab") false)).
  - right; left; reflexivity.
  - reflexivity.
Qed.

(** C4, amended.  In every transcript array reachable by a series of
    updates, an incomplete item is either the last element or is directly
    followed by an item of the other speaker; and an item that has a
    successor is never changed by any later update (it keeps its position and
    all of its fields). *)
Theorem reachable_incomplete_guarded_and_frozen :
  forall us,
    incomplete_guarded (run us)
    /\ (forall us' i,
          S i < List.length (run us) ->
          nth_error (run (us ++ us')) i = nth_error (run us) i).
Proof.
  intro us; split.
  - apply fold_guarded; intros [|? [|? ?]] L M post E; discriminate E.
  - intros us' i Hi.
    destruct (lastItem_cases (run us)) as [[E _] | [F [x [E _]]]].
    + rewrite E in Hi; simpl in Hi; lia.
    + assert (Hf : frozen F (run (us ++ us'))).
      { rewrite run_app; apply fold_frozen; rewrite E.
        exists [x]; split; [reflexivity | discriminate]. }
      destruct Hf as [tail [-> _]].
      rewrite E in *; rewrite length_app in Hi; simpl in Hi.
      rewrite !nth_error_app1 by lia; reflexivity.
Qed.

(** An instance of the second half: the first item of [interleaved] survives
    a later finalisation of the user turn. *)
Lemma reachable_frozen_instance :
  nth_error (run (interleaved ++ [upd "ab" true true 4])) 0
  = nth_error (run interleaved) 0.
Proof.
  apply (proj2 (reachable_incomplete_guarded_and_frozen interleaved)).
  vm_compute; lia.
Defined.

(** *** Identifiers of appended items (C9) *)

(** C9, as stated, fails: two updates handled within the same millisecond
    (one message carrying both an input and an output transcription) append
    two items with the same [id]. *)
Lemma appended_id_not_always_fresh :
  ~ (forall us u x,
        apply_update (run us) u = run us ++ [x] ->
        ~ In (id x) (map id (run us))).
Proof.
  intro H.
  apply (H [upd "a" true false 5] (upd "b" false false 5)
           (fresh 5 5 model (js "b") false) eq_refl).
  left; reflexivity.
Qed.

Lemma ids_from_clock us :
  forall i, In i (map id (run us)) ->
            exists v, In v us /\ i = toString (u_now1 v).
Proof.
  induction us as [|u us IH] using rev_ind; intros i Hi.
  - destruct Hi.
  - rewrite run_snoc in Hi.
    assert (Hin : forall v, In v us -> In v (us ++ [u]))
      by (intros; apply in_or_app; left; assumption).
    destruct (apply_update_shape (run us) u)
      as [E | [[items [L [Ep E]]] | E]]; rewrite E in Hi.
    + destruct (IH i Hi) as [v [Hv ->]]; eauto.
    + assert (Hi' : In i (map id (run us))).
      { rewrite Ep; rewrite map_app in *; exact Hi. }
      destruct (IH i Hi') as [v [Hv ->]]; eauto.
    + rewrite map_app in Hi; apply in_app_or in Hi; destruct Hi as [Hi|Hi].
      * destruct (IH i Hi) as [v [Hv ->]]; eauto.
      * destruct Hi as [<- | []]; exists u; split;
          [apply in_or_app; right; left; reflexivity | reflexivity].
Qed.

(** C9, amended.  The [id] of an appended item is the decimal rendering of
    the clock reading taken when it is appended; it differs from the [id] of
    every item already in the array provided that reading is later than the
    readings of all earlier updates. *)
Theorem appended_id_fresh_when_clock_advances :
  forall us u x,
    (forall v, In v us -> (u_now1 v < u_now1 u)%Z) ->
    apply_update (run us) u = run us ++ [x] ->
    id x = toString (u_now1 u) /\ ~ In (id x) (map id (run us)).
Proof.
  intros us u x Hclock Happ.
  assert (Hx : x = fresh (u_now1 u) (u_now2 u) (currentSource (u_isUser u))
                      (u_text u) (u_isComplete u)).
  { destruct (apply_update_shape (run us) u)
      as [E | [[items [L [Ep E]]] | E]]; rewrite E in Happ.
    - apply (f_equal (@List.length _)) in Happ.
      rewrite length_app in Happ; simpl in Happ; lia.
    - apply (f_equal (@List.length _)) in Happ.
      rewrite Ep, !length_app in Happ; simpl in Happ; lia.
    - apply snoc_inj in Happ; destruct Happ; congruence. }
  subst x; simpl; split; [reflexivity|].
  intro Hin; apply ids_from_clock in Hin; destruct Hin as [v [Hv E]].
  apply toString_inj in E; specialize (Hclock v Hv); lia.
Qed.

Lemma appended_id_fresh_witness :
  id (fresh 6 6 model (js "b") false) = toString 6
  /\ ~ In (id (fresh 6 6 model (js "b") false))
         (map id (run [upd "a" true false 5])).
Proof.
  apply (appended_id_fresh_when_clock_advances
           [upd "a" true false 5] (upd "b" false false 6)).
  - intros v [<- | []]; simpl; lia.
  - reflexivity.
Defined.

End Transcript.

(** ** Base64 ([utils.ts], [decodeBase64] and [encodeBase64])

    The two functions are thin loops around the platform's [btoa] and [atob];
    these are modelled after the "forgiving-base64" algorithms of the WHATWG
    Infra standard, which is what browsers implement.  A thrown
    [InvalidCharacterError] is [None]. *)

Module Base64.
Import JS.
Local Open Scope N_scope.

(** A [Uint8Array]. *)
Definition Uint8Array := list Byte.byte.

(** *** The platform functions *)

(** The base64 alphabet: A-Z, a-z, 0-9, [+], [/]. *)
Definition alphabet (n : N) : code_unit :=
  if n <? 26 then 65 + n
  else if n <? 52 then 97 + (n - 26)
  else if n <? 62 then 48 + (n - 52)
  else if n =? 62 then 43
  else 47.

Definition alphabet_index (c : code_unit) : option N :=
  if (65 <=? c) && (c <=? 90) then Some (c - 65)
  else if (97 <=? c) && (c <=? 122) then Some (c - 97 + 26)
  else if (48 <=? c) && (c <=? 57) then Some (c - 48 + 52)
  else if c =? 43 then Some 62
  else if c =? 47 then Some 63
  else None.

Definition equals_sign : code_unit := 61.

(** The input bytes regrouped in 6-bit units, the last group padded with
    zero bits. *)
Fixpoint sextets (l : list N) : list N :=
  match l with
  | a :: b :: c :: r =>
      let n := (a * 256 + b) * 256 + c in
      n / 262144 :: (n / 4096) mod 64 :: (n / 64) mod 64 :: n mod 64
        :: sextets r
  | [a; b] =>
      let n := (a * 256 + b) * 4 in
      [n / 4096; (n / 64) mod 64; n mod 64]
  | [a] =>
      let n := a * 16 in
      [n / 64; n mod 64]
  | [] => []
  end.

Definition padding (l : list N) : jsstring :=
  match N.of_nat (List.length l) mod 3 with
  | 1 => [equals_sign; equals_sign]
  | 2 => [equals_sign]
  | _ => []
  end.

(** [btoa(s)]: throws when [s] has a code unit above U+00FF. *)
Definition btoa (s : jsstring) : option jsstring :=
  if forallb (fun c => c <=? 255) s
  then Some (map alphabet (sextets s) ++ padding s)
  else None.

Definition isAsciiWhitespace (c : code_unit) : bool :=
  (c =? 9) || (c =? 10) || (c =? 12) || (c =? 13) || (c =? 32).

(** "If data ends with one or two U+003D (=) code points, remove them." *)
Definition strip_padding (data : jsstring) : jsstring :=
  match rev data with
  | c1 :: r1 =>
      if c1 =? equals_sign then
        match r1 with
        | c2 :: r2 => if c2 =? equals_sign then rev r2 else rev r1
        | [] => rev r1
        end
      else data
  | [] => data
  end.

Fixpoint indices (data : jsstring) : option (list N) :=
  match data with
  | [] => Some []
  | c :: r =>
      match alphabet_index c, indices r with
      | Some n, Some ns => Some (n :: ns)
      | _, _ => None
      end
  end.

(** The bit buffer emptied three bytes at a time; 12 or 18 left-over bits
    lose their last four or two. *)
Fixpoint octets (ss : list N) : list N :=
  match ss with
  | s1 :: s2 :: s3 :: s4 :: r =>
      let n := ((s1 * 64 + s2) * 64 + s3) * 64 + s4 in
      n / 65536 :: (n / 256) mod 256 :: n mod 256 :: octets r
  | [s1; s2; s3] =>
      let n := ((s1 * 64 + s2) * 64 + s3) / 4 in
      [n / 256; n mod 256]
  | [s1; s2] =>
      let n := (s1 * 64 + s2) / 16 in
      [n]
  | _ => []
  end.

(** [atob(data)] *)
Definition atob (data : jsstring) : option jsstring :=
  let data := filter (fun c => negb (isAsciiWhitespace c)) data in
  let data :=
    if N.of_nat (List.length data) mod 4 =? 0 then strip_padding data
    else data in
  if N.of_nat (List.length data) mod 4 =? 1 then None
  else
    match indices data with
    | Some ss => Some (octets ss)
    | None => None
    end.

(** *** The repository's functions *)

(** [bytes[i] = n]: a [Uint8Array] store keeps [n] modulo 256. *)
Definition ToUint8 (n : N) : Byte.byte :=
  match Byte.of_N (n mod 256) with
  | Some b => b
  | None => Byte.x00
  end.

(** [String.fromCharCode(b)] for a byte. *)
Definition fromCharCode (b : Byte.byte) : code_unit := Byte.to_N b.

Definition decodeBase64 (base64 : jsstring) : option Uint8Array :=
  match atob base64 with
  | Some binaryString => Some (map ToUint8 binaryString)
  | None => None
  end.

Definition encodeBase64 (bytes : Uint8Array) : option jsstring :=
  let binary := fold_left (fun acc b => concat acc [fromCharCode b]) bytes [] in
  btoa binary.

(** *** Round trip *)

Local Ltac euclid := Z.to_euclidean_division_equations; lia.

Lemma list_ind3 (A : Type) (P : list A -> Prop) :
  P [] -> (forall a, P [a]) -> (forall a b, P [a; b]) ->
  (forall a b c r, P r -> P (a :: b :: c :: r)) ->
  forall l, P l.
Proof.
  intros H0 H1 H2 H3.
  fix IH 1; intros [|a [|b [|c r]]];
    [exact H0 | exact (H1 a) | exact (H2 a b) | exact (H3 a b c r (IH r))].
Qed.

Definition is_byte (n : N) : Prop := n < 256.
Definition is_sextet (n : N) : Prop := n < 64.

Lemma sextets_bound l : Forall is_byte l -> Forall is_sextet (sextets l).
Proof.
  unfold is_byte, is_sextet.
  induction l as [| a | a b | a b c r IH] using list_ind3; intro H; simpl.
  - constructor.
  - inversion H; subst; repeat constructor; zify; euclid.
  - inversion H as [|? ? Ha H']; inversion H'; subst.
    repeat constructor; zify; euclid.
  - inversion H as [|? ? Ha H']; inversion H' as [|? ? Hb H''];
      inversion H'' as [|? ? Hc Hr]; subst.
    repeat constructor; try (zify; euclid).
    apply IH, Hr.
Qed.

Lemma octets_sextets l : Forall is_byte l -> octets (sextets l) = l.
Proof.
  unfold is_byte.
  induction l as [| a | a b | a b c r IH] using list_ind3; intro H.
  - reflexivity.
  - inversion H; subst; cbn [sextets octets]; f_equal; zify; euclid.
  - inversion H as [|? ? Ha H']; inversion H'; subst.
    cbn [sextets octets]; repeat f_equal; zify; euclid.
  - inversion H as [|? ? Ha H']; inversion H' as [|? ? Hb H''];
      inversion H'' as [|? ? Hc Hr]; subst.
    cbn [sextets octets]; rewrite (IH Hr).
    repeat f_equal; zify; euclid.
Qed.

Lemma alphabet_index_alphabet n :
  is_sextet n -> alphabet_index (alphabet n) = Some n.
Proof.
  unfold is_sextet, alphabet; intro H.
  destruct (N.ltb_spec n 26);
    [|destruct (N.ltb_spec n 52);
      [|destruct (N.ltb_spec n 62); [|destruct (N.eqb_spec n 62)]]];
    unfold alphabet_index;
    repeat match goal with
    | |- context [?a <=? ?b] => destruct (N.leb_spec a b)
    | |- context [?a =? ?b] => destruct (N.eqb_spec a b)
    end; cbn [andb]; try (f_equal; lia); try lia.
Qed.

Lemma alphabet_plain n :
  is_sextet n ->
  (alphabet n =? equals_sign) = false
  /\ isAsciiWhitespace (alphabet n) = false.
Proof.
  unfold is_sextet, alphabet; intro H.
  destruct (N.ltb_spec n 26);
    [|destruct (N.ltb_spec n 52);
      [|destruct (N.ltb_spec n 62); [|destruct (N.eqb_spec n 62)]]];
    unfold isAsciiWhitespace, equals_sign;
    repeat match goal with
    | |- context [?a =? ?b] => destruct (N.eqb_spec a b); [lia|]
    end; split; reflexivity.
Qed.

Lemma indices_alphabet ss :
  Forall is_sextet ss -> indices (map alphabet ss) = Some ss.
Proof.
  induction 1 as [|n ss Hn _ IH]; simpl; [reflexivity|].
  rewrite (alphabet_index_alphabet Hn), IH; reflexivity.
Qed.

Lemma filter_alphabet ss :
  Forall is_sextet ss ->
  filter (fun c => negb (isAsciiWhitespace c)) (map alphabet ss)
  = map alphabet ss.
Proof.
  induction 1 as [|n ss Hn _ IH]; simpl; [reflexivity|].
  rewrite (proj2 (alphabet_plain Hn)), IH; reflexivity.
Qed.

(** How many sextets, and how much padding, a byte string gets. *)
Lemma sextets_shape l :
  exists k : nat,
    (List.length (sextets l) = 4 * k /\ padding l = [])%nat
    \/ (List.length (sextets l) = 4 * k + 2
        /\ padding l = [equals_sign; equals_sign])%nat
    \/ (List.length (sextets l) = 4 * k + 3
        /\ padding l = [equals_sign])%nat.
Proof.
  induction l as [| a | a b | a b c r IH] using list_ind3.
  - exists 0%nat; left; split; reflexivity.
  - exists 0%nat; right; left; split; reflexivity.
  - exists 0%nat; right; right; split; reflexivity.
  - assert (Hp : padding (a :: b :: c :: r) = padding r).
    { unfold padding; cbn [List.length].
      replace (N.of_nat (S (S (S (List.length r)))) mod 3)
        with (N.of_nat (List.length r) mod 3); [reflexivity|].
      zify; euclid. }
    rewrite Hp; cbn [sextets List.length].
    destruct IH as [k [[E P] | [[E P] | [E P]]]]; exists (S k); rewrite E, P;
      [left | right; left | right; right]; split; try reflexivity; lia.
Qed.

Lemma strip_padding_encoded ss pad :
  Forall is_sextet ss ->
  pad = [] \/ pad = [equals_sign] \/ pad = [equals_sign; equals_sign] ->
  (pad <> [] -> ss <> []) ->
  strip_padding (map alphabet ss ++ pad) = map alphabet ss.
Proof.
  intros Hs Hpad Hne; unfold strip_padding.
  rewrite rev_app_distr, <- map_rev.
  assert (Hrev : Forall is_sextet (rev ss))
    by (apply Forall_rev; exact Hs).
  assert (Hnil : rev ss = [] -> ss = []).
  { intro E; apply (f_equal (@rev _)) in E;
      rewrite rev_involutive in E; exact E. }
  assert (Hback : map alphabet ss = rev (map alphabet (rev ss)))
    by (rewrite map_rev, rev_involutive; reflexivity).
  destruct (rev ss) as [|s rs] eqn:E.
  - rewrite (Hnil eq_refl) in *.
    destruct Hpad as [-> | [-> | ->]]; [reflexivity | |];
      exfalso; apply Hne; (discriminate || reflexivity).
  - inversion Hrev as [|? ? Hs1 _]; subst.
    pose proof (proj1 (alphabet_plain Hs1)) as Hs1'.
    destruct Hpad as [-> | [-> | ->]]; cbn [rev app map];
      change (equals_sign =? equals_sign) with true; cbn iota;
      rewrite ?Hs1'; rewrite ?app_nil_r; auto.
Qed.

Lemma atob_btoa s :
  Forall is_byte s -> exists e, btoa s = Some e /\ atob e = Some s.
Proof.
  intro Hb.
  assert (Hall : forallb (fun c => c <=? 255) s = true).
  { apply forallb_forall; intros c Hc.
    rewrite Forall_forall in Hb; specialize (Hb c Hc).
    unfold is_byte in Hb; apply N.leb_le; lia. }
  unfold btoa; rewrite Hall; eexists; split; [reflexivity|].
  pose proof (sextets_bound Hb) as Hs.
  assert (Hpadplain :
    filter (fun c => negb (isAsciiWhitespace c)) (padding s) = padding s).
  { unfold padding; destruct (N.of_nat (List.length s) mod 3) as [|[p|[p|p|]|]];
      reflexivity. }
  unfold atob; rewrite filter_app, (filter_alphabet Hs), Hpadplain.
  destruct (sextets_shape s) as [k Hk].
  assert (Hlen0 :
    N.of_nat (List.length (map alphabet (sextets s) ++ padding s)) mod 4 = 0).
  { rewrite length_app, length_map.
    destruct Hk as [[E P] | [[E P] | [E P]]]; rewrite E, P; simpl List.length;
      zify; euclid. }
  rewrite Hlen0; cbn [N.eqb].
  rewrite strip_padding_encoded; [| exact Hs | |].
  - assert (Hlen1 :
      (N.of_nat (List.length (map alphabet (sextets s))) mod 4 =? 1) = false).
    { rewrite length_map; apply N.eqb_neq.
      destruct Hk as [[E _] | [[E _] | [E _]]]; rewrite E; zify; euclid. }
    rewrite Hlen1, (indices_alphabet Hs), (octets_sextets Hb); reflexivity.
  - destruct Hk as [[_ P] | [[_ P] | [_ P]]]; rewrite P; auto.
  - intros Hp E; rewrite E in Hk; simpl in Hk.
    destruct Hk as [[_ P] | [[E' _] | [E' _]]]; [congruence | lia | lia].
Qed.

Lemma fromCharCode_byte b : is_byte (fromCharCode b).
Proof.
  unfold is_byte, fromCharCode; pose proof (Byte.to_N_bounded b); lia.
Qed.

Lemma ToUint8_fromCharCode b : ToUint8 (fromCharCode b) = b.
Proof.
  unfold ToUint8; rewrite N.mod_small by apply fromCharCode_byte.
  unfold fromCharCode.
  rewrite Byte.of_to_N; reflexivity.
Qed.

Lemma binary_string bytes :
  fold_left (fun acc b => concat acc [fromCharCode b]) bytes []
  = map fromCharCode bytes.
Proof.
  assert (H : forall acc,
    fold_left (fun acc b => concat acc [fromCharCode b]) bytes acc
    = acc ++ map fromCharCode bytes).
  { induction bytes as [|b r IH]; intro acc; simpl.
    - symmetry; apply app_nil_r.
    - rewrite IH; unfold concat; rewrite <- app_assoc; reflexivity. }
  apply H.
Qed.

Lemma to_N_ToUint8 n : Byte.to_N (ToUint8 n) = n mod 256.
Proof.
  unfold ToUint8.
  destruct (Byte.of_N (n mod 256)) as [b|] eqn:E.
  - apply Byte.to_of_N, E.
  - apply Byte.of_N_None_iff in E.
    pose proof (N.mod_upper_bound n 256); lia.
Qed.

Lemma base64_round_trip (bytes : Uint8Array) :
  exists base64,
    encodeBase64 bytes = Some base64 /\ decodeBase64 base64 = Some bytes.
Proof.
  unfold encodeBase64, decodeBase64.
  rewrite binary_string.
  destruct (@atob_btoa (map fromCharCode bytes)) as [e [He Hd]].
  { apply Forall_forall; intros c Hc; apply in_map_iff in Hc.
    destruct Hc as [b [<- _]]; apply fromCharCode_byte. }
  exists e; split; [exact He|].
  rewrite Hd, map_map; f_equal.
  rewrite <- (map_id bytes) at 2; apply map_ext, ToUint8_fromCharCode.
Qed.

(** C10.  Encoding any byte array succeeds, and decoding the resulting
    base64 string gives back an array equal to the original: same length,
    same byte at every index. *)
Theorem decodeBase64_encodeBase64 :
  forall bytes : Uint8Array,
    exists base64,
      encodeBase64 bytes = Some base64
      /\ decodeBase64 base64 = Some bytes
      /\ (forall decoded, decodeBase64 base64 = Some decoded ->
            List.length decoded = List.length bytes
            /\ forall i, nth_error decoded i = nth_error bytes i).
Proof.
  intro bytes; destruct (base64_round_trip bytes) as [e [He Hd]].
  exists e; split; [exact He|]; split; [exact Hd|].
  intros decoded H; rewrite Hd in H; injection H as <-.
  split; reflexivity.
Qed.

Example encodeBase64_Man :
  encodeBase64 [Byte.x4d; Byte.x61; Byte.x6e; Byte.x21] = Some (js "TWFuIQ==").
Proof. reflexivity. Qed.

Example decodeBase64_Man :
  decodeBase64 (js "TWFu IQ==") = Some [Byte.x4d; Byte.x61; Byte.x6e; Byte.x21].
Proof. reflexivity. Qed.

Example decodeBase64_rejects :
  decodeBase64 (js "TWFuI") = None /\ decodeBase64 (js "TW=u") = None.
Proof. split; reflexivity. Qed.

End Base64.

(** ** JavaScript numbers

    The audio helpers compute with JavaScript numbers.  Their code is
    embedded once, over an interface of the operations it uses, and read in
    two arithmetics:

      - [binary64]: IEEE 754 double precision through Rocq's primitive
        floats, with [Float32Array] stores rounding to single precision.
        This is the arithmetic the program runs in; it is used to evaluate
        the code on concrete inputs.
      - [exact]: rational numbers, every operation exact.  Statements about
        all inputs are proved in this reading; it has no infinities and no
        NaN, and a division by zero (never reached below) is the
        rational field's own. *)

Module Numeric.

Class Number (num : Type) : Type := {
  ofZ : Z -> num;                     (* an integer as a number *)
  add : num -> num -> num;
  sub : num -> num -> num;
  mul : num -> num -> num;
  div : num -> num -> num;
  ltb : num -> num -> bool;           (* [a < b] *)
  eqb : num -> num -> bool;           (* [a === b] *)
  falsy : num -> bool;                (* ToBoolean gives false *)
  Math_max : num -> num -> num;
  Math_min : num -> num -> num;
  Math_floor : num -> num;
  Math_ceil : num -> num;
  (* ToIndex, as [new Float32Array(n)] applies it: [None] is a RangeError *)
  ToIndex : num -> option nat;
  (* the number as an array index in [a[k]]: [None] when it is not one *)
  asIndex : num -> option nat;
  (* the value a [Float32Array] element holds after a store *)
  fround : num -> num;
  (* the value an [Int16Array] element holds after a store *)
  ToInt16 : num -> Z
}.

Declare Scope js_scope.
Delimit Scope js_scope with js.
Infix "+" := add : js_scope.
Infix "-" := sub : js_scope.
Infix "*" := mul : js_scope.
Infix "/" := div : js_scope.
Infix "<?" := ltb : js_scope.
Infix "===" := eqb (at level 70, no associativity) : js_scope.

(** Modular reduction of an integer to a signed 16-bit one. *)
Definition wrap16 (t : Z) : Z :=
  let m := (t mod 65536)%Z in
  if (32768 <=? m)%Z then (m - 65536)%Z else m.

(** The largest length [ToIndex] accepts, 2^53 - 1. *)
Definition max_safe_integer : Z := 9007199254740991.

Definition index_of_integer (t : Z) : option nat :=
  if ((t <? 0) || (max_safe_integer <? t))%Z then None
  else Some (Z.to_nat t).

(** *** Exact rationals *)

Module Exact.

(** Rounding toward zero. *)
Definition Qtrunc (q : Q) : Z :=
  if Qle_bool 0%Q q then Qfloor q else Qceiling q.

Definition Qltb (a b : Q) : bool := negb (Qle_bool b a).

#[export] Instance exact : Number Q := {|
  ofZ := inject_Z;
  add := Qplus;
  sub := Qminus;
  mul := Qmult;
  div := Qdiv;
  ltb := Qltb;
  eqb := Qeq_bool;
  falsy := fun q => Qeq_bool q 0%Q;
  Math_max := fun a b => if Qltb a b then b else a;
  Math_min := fun a b => if Qltb b a then b else a;
  Math_floor := fun q => inject_Z (Qfloor q);
  Math_ceil := fun q => inject_Z (Qceiling q);
  ToIndex := fun q => index_of_integer (Qtrunc q);
  asIndex := fun q =>
    if Qeq_bool q (inject_Z (Qfloor q)) && Qle_bool 0%Q q
    then Some (Z.to_nat (Qfloor q)) else None;
  fround := fun q => q;
  ToInt16 := fun q => wrap16 (Qtrunc q)
|}.

End Exact.

(** *** IEEE 754 binary64 *)

Module Binary64.
Import FloatOps SpecFloat.

Definition float_ofZ (z : Z) : PrimFloat.float :=
  if (z <? 0)%Z then PrimFloat.opp (PrimFloat.of_uint63 (Uint63.of_Z (- z)))
  else PrimFloat.of_uint63 (Uint63.of_Z z).

(** The integer part of [m * 2^e], and whether a fractional part remains. *)
Definition integer_part (m : positive) (e : Z) : Z * bool :=
  if (0 <=? e)%Z then (Z.shiftl (Zpos m) e, false)
  else (Z.shiftr (Zpos m) (- e),
        negb (Z.land (Zpos m) (Z.ones (- e)) =? 0)%Z).

Definition float_floor (x : PrimFloat.float) : PrimFloat.float :=
  match Prim2SF x with
  | S754_finite s m e =>
      if (0 <=? e)%Z then x
      else
        let '(q, fraction) := integer_part m e in
        if s then PrimFloat.opp (float_ofZ (if fraction then q + 1 else q))
        else float_ofZ q
  | _ => x
  end.

Definition float_ceil (x : PrimFloat.float) : PrimFloat.float :=
  match Prim2SF x with
  | S754_finite s m e =>
      if (0 <=? e)%Z then x
      else
        let '(q, fraction) := integer_part m e in
        if s then PrimFloat.opp (float_ofZ q)
        else float_ofZ (if fraction then q + 1 else q)
  | _ => x
  end.

(** Truncation toward zero of a finite float; 0 for NaN, and [None] for the
    infinities. *)
Definition float_trunc (x : PrimFloat.float) : option Z :=
  match Prim2SF x with
  | S754_finite s m e =>
      let q := fst (integer_part m e) in Some (if s then - q else q)%Z
  | S754_infinity _ => None
  | _ => Some 0%Z
  end.

(** Rounding to the nearest binary32 value, ties to even. *)
Definition float_fround (x : PrimFloat.float) : PrimFloat.float :=
  match Prim2SF x with
  | S754_finite s m e =>
      SF2Prim (binary_normalize 24 128 (if s then Zneg m else Zpos m) e s)
  | _ => x
  end.

Definition float_max (a b : PrimFloat.float) : PrimFloat.float :=
  if PrimFloat.is_nan a || PrimFloat.is_nan b then PrimFloat.nan
  else if PrimFloat.ltb a b then b
  else if PrimFloat.ltb b a then a
  else if PrimFloat.get_sign a then b else a.        (* max(-0, +0) is +0 *)

Definition float_min (a b : PrimFloat.float) : PrimFloat.float :=
  if PrimFloat.is_nan a || PrimFloat.is_nan b then PrimFloat.nan
  else if PrimFloat.ltb b a then b
  else if PrimFloat.ltb a b then a
  else if PrimFloat.get_sign a then a else b.        (* min(+0, -0) is -0 *)

#[export] Instance binary64 : Number PrimFloat.float := {|
  ofZ := float_ofZ;
  add := PrimFloat.add;
  sub := PrimFloat.sub;
  mul := PrimFloat.mul;
  div := PrimFloat.div;
  ltb := PrimFloat.ltb;
  eqb := PrimFloat.eqb;
  falsy := fun x => PrimFloat.is_zero x || PrimFloat.is_nan x;
  Math_max := float_max;
  Math_min := float_min;
  Math_floor := float_floor;
  Math_ceil := float_ceil;
  ToIndex := fun x =>
    match float_trunc x with
    | Some t => index_of_integer t
    | None => None
    end;
  asIndex := fun x =>
    match Prim2SF x with
    | S754_zero _ => Some 0%nat
    | S754_finite false m e =>
        let '(q, fraction) := integer_part m e in
        if fraction then None else index_of_integer q
    | _ => None
    end;
  fround := float_fround;
  ToInt16 := fun x =>
    match float_trunc x with
    | Some t => wrap16 t
    | None => 0%Z
    end
|}.

End Binary64.

End Numeric.

(** ** Audio helpers ([utils.ts]) *)

Module Audio.
Import JS Base64 Numeric.

Section Helpers.
Context {num : Type} {number : Number num}.
Local Open Scope js_scope.

(** A [Float32Array]. *)
Definition Float32Array := list num.

(** [input[k] || otherwise]: the element when [k] is an index of the array
    and the element is truthy, [otherwise] when the lookup gives [undefined]
    or a falsy number. *)
Definition element_or (input : Float32Array) (k : num) (otherwise : num) : num :=
  match asIndex k with
  | Some i =>
      match nth_error input i with
      | Some v => if falsy v then otherwise else v
      | None => otherwise
      end
  | None => otherwise
  end.

(** The value stored at index [i] by the loop body of [downsampleTo16k]. *)
Definition interpolate (input : Float32Array) (ratio : num) (i : nat) : num :=
  let idx := ofZ (Z.of_nat i) * ratio in
  let intIdx := Math_floor idx in
  let frac := idx - intIdx in
  let val1 := element_or input intIdx (ofZ 0) in
  let val2 := element_or input (intIdx + ofZ 1) val1 in
  fround (val1 * (ofZ 1 - frac) + val2 * frac).

(** [downsampleTo16k(input, inputRate)]; [None] is the [RangeError] of
    [new Float32Array(newLength)]. *)
Definition downsampleTo16k (input : Float32Array) (inputRate : num)
  : option Float32Array :=
  if inputRate === ofZ 16000 then Some input
  else
    let ratio := inputRate / ofZ 16000 in
    let newLength := Math_ceil (ofZ (Z.of_nat (List.length input)) / ratio) in
    match ToIndex newLength with
    | None => None
    | Some n => Some (map (interpolate input ratio) (seq 0 n))
    end.

(** The [Int16Array] element [createPcmBlob] stores for the sample [x]. *)
Definition pcm16 (x : num) : Z :=
  let s := Math_max (ofZ (-1)) (Math_min (ofZ 1) x) in
  ToInt16 (if s <? ofZ 0 then s * ofZ 32768 else s * ofZ 32767).

(** The two bytes of a 16-bit element as [new Uint8Array(int16.buffer)]
    shows them on a little-endian platform: low byte first, two's
    complement. *)
Definition int16_bytes (v : Z) : list Byte.byte :=
  [ToUint8 (Z.to_N (v mod 256)); ToUint8 (Z.to_N ((v / 256) mod 256))].

Record Blob := { data : jsstring; mimeType : jsstring }.

(** [createPcmBlob(data)] *)
Definition createPcmBlob (samples : Float32Array) : option Blob :=
  let int16 := map pcm16 samples in
  match encodeBase64 (flat_map int16_bytes int16) with
  | Some d => Some {| data := d; mimeType := js "audio/pcm;rate=16000" |}
  | None => None
  end.

(** [new Int16Array(data.buffer)]: [None] is the [RangeError] for a buffer
    of odd byte length. *)
Fixpoint Int16Array_of_buffer (bytes : Uint8Array) : option (list Z) :=
  match bytes with
  | [] => Some []
  | [_] => None
  | lo :: hi :: rest =>
      match Int16Array_of_buffer rest with
      | Some l =>
          Some (wrap16 (Z.of_N (Byte.to_N lo) + 256 * Z.of_N (Byte.to_N hi))
                  :: l)
      | None => None
      end
  end.

Record AudioBuffer := { sampleRate : num; channelData : Float32Array }.

(** [buffer.duration] *)
Definition duration (b : AudioBuffer) : num :=
  ofZ (Z.of_nat (List.length (channelData b))) / sampleRate b.

(** [decodeAudioData(data, ctx, sampleRate)] with the default single
    channel, the only way it is called.  [None] stands for a thrown
    exception: the [RangeError] of the [Int16Array] view, or the
    [NotSupportedError] of [ctx.createBuffer] for zero frames. *)
Definition decodeAudioData (bytes : Uint8Array) (rate : num)
  : option AudioBuffer :=
  match Int16Array_of_buffer bytes with
  | None => None
  | Some dataInt16 =>
      match dataInt16 with
      | [] => None
      | _ :: _ =>
          Some {| sampleRate := rate;
                  channelData :=
                    map (fun v => fround (ofZ v / ofZ 32768)) dataInt16 |}
      end
  end.

End Helpers.

(** *** Facts that hold in any arithmetic *)

Section AnyArithmetic.
Context {num : Type} {number : Number num}.
Local Open Scope js_scope.

(** When [downsampleTo16k] resamples, it either throws, exactly when the
    length expression is not a valid array length, or returns precisely that
    many samples. *)
Lemma downsampleTo16k_resampled (input : Float32Array (num := num)) inputRate :
  (inputRate === ofZ 16000) = false ->
  match ToIndex (Math_ceil (ofZ (Z.of_nat (List.length input))
                              / (inputRate / ofZ 16000))) with
  | Some n =>
      exists out, downsampleTo16k input inputRate = Some out
                  /\ List.length out = n
  | None => downsampleTo16k input inputRate = None
  end.
Proof.
  intro H; unfold downsampleTo16k; rewrite H.
  destruct (ToIndex _) as [n|]; [|reflexivity].
  eexists; split; [reflexivity|].
  rewrite length_map, length_seq; reflexivity.
Qed.

End AnyArithmetic.

(** *** Exact arithmetic *)

Section ExactArithmetic.
Import Numeric.Exact.
Local Open Scope Q_scope.

Lemma Qltb_iff a b : Qltb a b = true <-> a < b.
Proof.
  unfold Qltb; rewrite negb_true_iff.
  destruct (Qle_bool b a) eqn:E.
  - apply Qle_bool_iff in E; split; [discriminate | intro; lra].
  - split; [intros _ | reflexivity].
    destruct (Qlt_le_dec a b) as [H|H]; [exact H|].
    apply Qle_bool_iff in H; congruence.
Qed.

Lemma Qltb_false_iff a b : Qltb a b = false <-> b <= a.
Proof.
  pose proof (Qltb_iff a b) as H; destruct (Qltb a b); split; intro K;
    try reflexivity; try discriminate.
  - assert (a < b) by (apply H; reflexivity); lra.
  - destruct (Qlt_le_dec a b) as [L|L]; [|exact L].
    apply H in L; discriminate.
Qed.

Lemma inject_Z_nonneg z : (0 <= z)%Z -> 0 <= inject_Z z.
Proof. intro H; unfold Qle; simpl; lia. Qed.

Lemma Qtrunc_Z z : Qtrunc (inject_Z z) = z.
Proof.
  unfold Qtrunc; destruct (Qle_bool 0 (inject_Z z));
    [apply Qfloor_Z | apply Qceiling_Z].
Qed.

Lemma index_of_integer_ok t :
  (0 <= t <= max_safe_integer)%Z -> index_of_integer t = Some (Z.to_nat t).
Proof.
  intro H; unfold index_of_integer.
  destruct (Z.ltb_spec t 0); [lia|].
  destruct (Z.ltb_spec max_safe_integer t); [lia | reflexivity].
Qed.

(** The exact length of the resampled array lies between 0 and the input
    length when the input rate exceeds the target rate. *)
Lemma newLength_bounds (len : Z) (R : Q) :
  (0 <= len)%Z -> 16000 < R ->
  (0 <= Qceiling (inject_Z len / (R / 16000)) <= len)%Z.
Proof.
  intros Hlen HR.
  assert (Hratio : 1 < R / 16000)
    by (apply Qlt_shift_div_l; lra).
  assert (Hl : 0 <= inject_Z len)
    by (unfold Qle; simpl; lia).
  assert (H0 : 0 <= inject_Z len / (R / 16000))
    by (apply Qle_shift_div_l; lra).
  assert (H1 : inject_Z len / (R / 16000) <= inject_Z len).
  { apply Qle_shift_div_r; [lra|].
    assert (0 <= inject_Z len * (R / 16000 - 1))
      by (apply Qmult_le_0_compat; lra).
    lra. }
  split.
  - apply Qceiling_resp_le in H0; exact H0.
  - apply Qceiling_resp_le in H1; rewrite Qceiling_Z in H1; exact H1.
Qed.

Lemma downsampleTo16k_exact_length (input : list Q) (R : Q) :
  (Z.of_nat (List.length input) <= max_safe_integer)%Z ->
  16000 < R ->
  exists out,
    downsampleTo16k input R = Some out
    /\ List.length out
       = Z.to_nat (Qceiling (inject_Z (Z.of_nat (List.length input))
                             / (R / 16000))).
Proof.
  intros Hmax HR.
  assert (Hne : (R === ofZ 16000)%js = false).
  { destruct (R === ofZ 16000)%js eqn:E; [|reflexivity].
    apply Qeq_bool_iff in E; cbn [ofZ exact] in E.
    change (inject_Z 16000) with 16000 in E; lra. }
  pose proof (downsampleTo16k_resampled input R Hne) as H.
  cbn [ToIndex Math_ceil div ofZ exact] in H.
  change (inject_Z 16000) with 16000 in H.
  rewrite Qtrunc_Z in H.
  pose proof (@newLength_bounds (Z.of_nat (List.length input)) R
                (Nat2Z.is_nonneg _) HR) as Hb.
  rewrite index_of_integer_ok in H by lia.
  exact H.
Qed.



(** **** Conversion to 16-bit samples (C7) *)

(** [Math.round] *)
Definition Math_round (q : Q) : Z := Qfloor (q + (1 # 2)).

Definition clamp (s : Q) : Q :=
  if Qlt_le_dec s (-1) then -1 else if Qlt_le_dec 1 s then 1 else s.

(** The conversion as the design document words it: clamp, then round. *)
Definition rounded_pcm16 (s : Q) : Z :=
  let c := clamp s in
  if Qlt_le_dec c 0 then Math_round (c * 32768) else Math_round (c * 32767).

(** The conversion with truncation toward zero in place of rounding. *)
Definition truncated_pcm16 (s : Q) : Z :=
  let c := clamp s in
  if Qlt_le_dec c 0 then Qtrunc (c * 32768) else Qtrunc (c * 32767).

Lemma clamp_range s : -1 <= clamp s <= 1.
Proof.
  unfold clamp; destruct (Qlt_le_dec s (-1));
    [|destruct (Qlt_le_dec 1 s)]; lra.
Qed.

Lemma clamp_code s :
  Math_max (ofZ (-1)) (Math_min (ofZ 1) s) == clamp s.
Proof.
  cbn [Math_max Math_min ofZ exact]; unfold clamp.
  change (inject_Z (-1)) with (-1); change (inject_Z 1) with 1.
  destruct (Qltb s 1) eqn:E1.
  - apply Qltb_iff in E1.
    destruct (Qltb (-1) s) eqn:E2;
      [apply Qltb_iff in E2 | apply Qltb_false_iff in E2];
      destruct (Qlt_le_dec s (-1)); try lra;
      destruct (Qlt_le_dec 1 s); lra.
  - apply Qltb_false_iff in E1.
    destruct (Qltb (-1) 1) eqn:E2;
      [|apply Qltb_false_iff in E2; lra].
    destruct (Qlt_le_dec s (-1)); [lra|].
    destruct (Qlt_le_dec 1 s); lra.
Qed.

Lemma Qtrunc_comp a b : a == b -> Qtrunc a = Qtrunc b.
Proof.
  intro E; unfold Qtrunc.
  assert (Hb : Qle_bool 0 a = Qle_bool 0 b).
  { destruct (Qle_bool 0 a) eqn:Ea, (Qle_bool 0 b) eqn:Eb; try reflexivity.
    - apply Qle_bool_iff in Ea.
      assert (0 <= b) by lra.
      apply Qle_bool_iff in H; congruence.
    - apply Qle_bool_iff in Eb.
      assert (0 <= a) by lra.
      apply Qle_bool_iff in H; congruence. }
  rewrite Hb; destruct (Qle_bool 0 b).
  - apply Qfloor_comp, E.
  - apply Qceiling_comp, E.
Qed.

Lemma Qtrunc_nonneg q : 0 <= q -> Qtrunc q = Qfloor q.
Proof.
  intro H; unfold Qtrunc; apply Qle_bool_iff in H; rewrite H; reflexivity.
Qed.

Lemma Qtrunc_neg q : q < 0 -> Qtrunc q = Qceiling q.
Proof.
  intro H; unfold Qtrunc.
  destruct (Qle_bool 0 q) eqn:E; [|reflexivity].
  apply Qle_bool_iff in E; lra.
Qed.

Lemma Qfloor_bounds q : inject_Z (Qfloor q) <= q < inject_Z (Qfloor q) + 1.
Proof.
  split; [apply Qfloor_le|].
  pose proof (Qlt_floor q) as H; rewrite inject_Z_plus in H; exact H.
Qed.

Lemma Qceiling_bounds q :
  inject_Z (Qceiling q) - 1 < q <= inject_Z (Qceiling q).
Proof.
  split; [|apply Qle_ceiling].
  pose proof (Qceiling_lt q) as H.
  unfold Z.sub in H; rewrite inject_Z_plus in H; exact H.
Qed.

Lemma inject_Z_le_inv z (k : Z) : inject_Z z <= inject_Z k -> (z <= k)%Z.
Proof. rewrite <- Zle_Qle; auto. Qed.

Lemma inject_Z_lt_inv z (k : Z) : inject_Z z < inject_Z k -> (z < k)%Z.
Proof. rewrite <- Zlt_Qlt; auto. Qed.

Lemma truncated_pcm16_range s : (-32768 <= truncated_pcm16 s <= 32767)%Z.
Proof.
  unfold truncated_pcm16; pose proof (clamp_range s) as Hc.
  destruct (Qlt_le_dec (clamp s) 0) as [Hn|Hp].
  - rewrite Qtrunc_neg by lra.
    pose proof (Qceiling_bounds (clamp s * 32768)) as Hb.
    split.
    + apply inject_Z_le_inv.
      change (inject_Z (-32768)) with (-32768); lra.
    + assert (H : (Qceiling (clamp s * 32768) < 1)%Z); [|lia].
      apply inject_Z_lt_inv; change (inject_Z 1) with 1; lra.
  - rewrite Qtrunc_nonneg by lra.
    pose proof (Qfloor_bounds (clamp s * 32767)) as Hb.
    split.
    + assert (H : (-1 < Qfloor (clamp s * 32767))%Z); [|lia].
      apply inject_Z_lt_inv; change (inject_Z (-1)) with (-1); lra.
    + apply inject_Z_le_inv.
      change (inject_Z 32767) with 32767; lra.
Qed.

Lemma wrap16_int16 v : (-32768 <= v <= 32767)%Z -> wrap16 v = v.
Proof.
  intro H; unfold wrap16.
  destruct (Z.leb_spec 32768 (v mod 65536));
    Z.to_euclidean_division_equations; lia.
Qed.

(** In exact arithmetic the stored element is the truncated product: the
    clamp keeps it in the 16-bit range, so the store never wraps. *)
Lemma pcm16_truncated s : pcm16 s = truncated_pcm16 s.
Proof.
  rewrite <- (wrap16_int16 (truncated_pcm16_range s)).
  unfold pcm16, truncated_pcm16.
  pose proof (clamp_code s) as Hc; pose proof (clamp_range s) as Hr.
  set (c := Math_max (ofZ (-1)) (Math_min (ofZ 1) s)) in *.
  cbn [ToInt16 ltb mul ofZ exact]; f_equal.
  change (inject_Z 0) with 0; change (inject_Z 32768) with 32768;
    change (inject_Z 32767) with 32767.
  destruct (Qltb c 0) eqn:E; destruct (Qlt_le_dec (clamp s) 0) as [Hn|Hp].
  - apply Qtrunc_comp; rewrite Hc; reflexivity.
  - apply Qltb_iff in E; lra.
  - apply Qltb_false_iff in E.
    transitivity (Qtrunc 0); [apply Qtrunc_comp | symmetry; apply Qtrunc_comp];
      nra.
  - apply Qtrunc_comp; rewrite Hc; reflexivity.
Qed.

Lemma Int16Array_of_int16_bytes (vs : list Z) :
  Forall (fun v => (-32768 <= v <= 32767)%Z) vs ->
  Int16Array_of_buffer (flat_map int16_bytes vs) = Some vs.
Proof.
  induction 1 as [|v vs Hv _ IH]; [reflexivity|].
  cbn [flat_map int16_bytes app Int16Array_of_buffer].
  rewrite IH, !to_N_ToUint8; do 2 f_equal.
  assert (Hlo : Z.of_N (Z.to_N (v mod 256) mod 256) = (v mod 256)%Z).
  { rewrite N2Z.inj_mod, Z2N.id by (apply Z.mod_pos_bound; lia).
    apply Z.mod_small, Z.mod_pos_bound; lia. }
  assert (Hhi : Z.of_N (Z.to_N ((v / 256) mod 256) mod 256)
                = ((v / 256) mod 256)%Z).
  { rewrite N2Z.inj_mod, Z2N.id by (apply Z.mod_pos_bound; lia).
    apply Z.mod_small, Z.mod_pos_bound; lia. }
  rewrite Hlo, Hhi; unfold wrap16.
  destruct (Z.leb_spec 32768
              ((v mod 256 + 256 * ((v / 256) mod 256)) mod 65536));
    Z.to_euclidean_division_equations; lia.
Qed.

Lemma pcm16_all_int16 (samples : list Q) :
  Forall (fun v => (-32768 <= v <= 32767)%Z) (map pcm16 samples).
Proof.
  apply Forall_forall; intros v Hv; apply in_map_iff in Hv.
  destruct Hv as [s [<- _]]; rewrite pcm16_truncated.
  apply truncated_pcm16_range.
Qed.

(** C7, as stated, fails: the sample 1/4 scales to 8191.75, which the
    [Int16Array] store truncates to 8191 where rounding gives 8192. *)
Lemma pcm16_does_not_round : ~ (forall s : Q, pcm16 s = rounded_pcm16 s).
Proof. intro H; specialize (H (1 # 4)); vm_compute in H; discriminate H. Qed.

Lemma createPcmBlob_truncates_helper (samples : list Q) :
  exists blob bytes,
    createPcmBlob samples = Some blob
    /\ decodeBase64 (data blob) = Some bytes
    /\ Int16Array_of_buffer bytes = Some (map truncated_pcm16 samples).
Proof.
  unfold createPcmBlob.
  destruct (base64_round_trip (flat_map int16_bytes (map pcm16 samples)))
    as [e [He Hd]].
  rewrite He; eexists; eexists; split; [reflexivity|].
  split; [exact Hd|].
  rewrite Int16Array_of_int16_bytes by apply pcm16_all_int16.
  f_equal; apply map_ext, pcm16_truncated.
Qed.

(** C7, amended.  Every sample is clamped to [-1, 1] and converted to a
    16-bit integer by truncating toward zero s * 32768 when s < 0 and
    s * 32767 otherwise; the chunk holds these integers packed little-endian
    (base64-encoded, as [audio/pcm;rate=16000]). *)
Theorem createPcmBlob_truncates_little_endian :
  forall samples : Float32Array (num := Q),
    exists blob bytes,
      createPcmBlob samples = Some blob
      /\ mimeType blob = js "audio/pcm;rate=16000"
      /\ decodeBase64 (data blob) = Some bytes
      /\ Int16Array_of_buffer bytes = Some (map truncated_pcm16 samples).
Proof.
  intro samples.
  destruct (createPcmBlob_truncates_helper samples)
    as [blob [bytes [Hb [Hd Hi]]]].
  exists blob, bytes; repeat split; try assumption.
  unfold createPcmBlob in Hb.
  destruct (encodeBase64 _); inversion Hb; reflexivity.
Qed.

(** **** Encoding round trip (C8) *)

(** Encode the samples as [createPcmBlob] does, then decode the chunk as
    [handleOnMessage] does ([decodeBase64], then [decodeAudioData]). *)
Definition round_trip (rate : Q) (samples : Float32Array (num := Q))
  : option (Float32Array (num := Q)) :=
  match createPcmBlob samples with
  | Some blob =>
      match decodeBase64 (data blob) with
      | Some bytes =>
          match decodeAudioData bytes rate with
          | Some buffer => Some (channelData buffer)
          | None => None
          end
      | None => None
      end
  | None => None
  end.

Lemma round_trip_eq rate (samples : list Q) :
  samples <> [] ->
  round_trip rate samples
  = Some (map (fun s => inject_Z (truncated_pcm16 s) / 32768) samples).
Proof.
  intro Hne; unfold round_trip.
  destruct (createPcmBlob_truncates_helper samples)
    as [blob [bytes [-> [Hd Hi]]]].
  rewrite Hd; unfold decodeAudioData; rewrite Hi.
  destruct samples as [|s r]; [congruence|].
  cbn [map]; cbn [channelData fround ofZ div exact].
  rewrite map_map; reflexivity.
Qed.

Lemma Qdiv_32768 x : x / 32768 == x * (1 # 32768).
Proof. unfold Qdiv; reflexivity. Qed.

(** The error of one sample through the round trip. *)
Lemma sample_error s :
  -1 <= s <= 1 ->
  let d := inject_Z (truncated_pcm16 s) / 32768 in
  Qabs (d - s) < 2 # 32768 /\ (s <= 0 -> Qabs (d - s) < 1 # 32768).
Proof.
  intros Hs d; subst d; rewrite Qdiv_32768; unfold truncated_pcm16, clamp.
  destruct (Qlt_le_dec s (-1)); [lra|].
  destruct (Qlt_le_dec 1 s) as [H1|H1].
  - (* s = 1 *)
    assert (E : Qtrunc (1 * 32767) = 32767%Z) by reflexivity.
    destruct (Qlt_le_dec 1 0); [lra|]; rewrite E.
    change (inject_Z 32767) with 32767.
    split; [|intro; lra].
    apply Qabs_Qlt_condition; split; lra.
  - destruct (Qlt_le_dec s 0) as [Hn|Hp].
    + rewrite Qtrunc_neg by lra.
      pose proof (Qceiling_bounds (s * 32768)) as Hb.
      split; [|intros _]; apply Qabs_Qlt_condition; split; lra.
    + rewrite Qtrunc_nonneg by lra.
      pose proof (Qfloor_bounds (s * 32767)) as Hb.
      split.
      * apply Qabs_Qlt_condition; split; lra.
      * intro H0.
        assert (E : Qfloor (s * 32767) = 0%Z).
        { assert (H : s * 32767 == 0) by lra.
          rewrite (Qfloor_comp _ _ H); reflexivity. }
        rewrite E; change (inject_Z 0) with 0.
        apply Qabs_Qlt_condition; split; lra.
Qed.

(** C8, as stated, fails: the sample 1 - 2^-16 is stored as 32766 and read
    back as 32766/32768, which is 3/65536 away from it. *)
Lemma round_trip_error_above_1_32768 :
  ~ (forall rate s d,
        -1 <= s <= 1 ->
        round_trip rate [s] = Some [d] ->
        Qabs (d - s) <= 1 # 32768).
Proof.
  intro H.
  assert (Hs : -1 <= 65535 # 65536 <= 1) by (split; discriminate).
  specialize (H 24000 (65535 # 65536) (32766 / 32768) Hs eq_refl).
  vm_compute in H; apply H; reflexivity.
Qed.

(** C8, amended.  For samples in [-1, 1], encoding with [createPcmBlob] and
    decoding the chunk with [decodeBase64] and [decodeAudioData] reproduces
    every sample with an error below 2/32768; for samples that are not
    positive the error is below 1/32768. *)
Theorem round_trip_error :
  forall rate (samples : Float32Array (num := Q)),
    samples <> [] ->
    Forall (fun s => -1 <= s <= 1) samples ->
    exists decoded,
      round_trip rate samples = Some decoded
      /\ Forall2 (fun s d =>
                    Qabs (d - s) < 2 # 32768
                    /\ (s <= 0 -> Qabs (d - s) < 1 # 32768))
                 samples decoded.
Proof.
  intros rate samples Hne Hall.
  rewrite (round_trip_eq rate Hne); eexists; split; [reflexivity|].
  clear Hne; induction Hall as [|s r Hs _ IH]; cbn [map]; constructor.
  - apply (sample_error Hs).
  - exact IH.
Qed.

Lemma round_trip_error_witness :
  exists decoded,
    round_trip 24000 [65535 # 65536; -1 # 3] = Some decoded
    /\ Forall2 (fun s d =>
                  Qabs (d - s) < 2 # 32768
                  /\ (s <= 0 -> Qabs (d - s) < 1 # 32768))
               [65535 # 65536; -1 # 3] decoded.
Proof.
  apply round_trip_error.
  - discriminate.
  - repeat constructor; discriminate.
Defined.

End ExactArithmetic.

(** *** Linear interpolation (C6) *)

Section Interpolation.
Context {num : Type} {number : Number num}.
Local Open Scope js_scope.

(** The interpolation as the design document words it: for output index
    [i], position [p = i * ratio], floor index [k], fractional part [f], the
    value [input[k] * (1 - f) + input[k+1] * f], an out-of-range [k] read as
    the last valid sample and an out-of-range [k + 1] as the same sample. *)
Definition sample_at (input : Float32Array) (k : num) (otherwise : num) : num :=
  match asIndex k with
  | Some j =>
      match nth_error input j with
      | Some v => v
      | None => otherwise
      end
  | None => otherwise
  end.

Definition linear_interpolation (input : Float32Array) (ratio : num) (i : nat)
  : num :=
  let p := ofZ (Z.of_nat i) * ratio in
  let k := Math_floor p in
  let f := p - k in
  let a := sample_at input k (last input (ofZ 0)) in
  let b := sample_at input (k + ofZ 1) a in
  a * (ofZ 1 - f) + b * f.

(** Where the floor index is in range and no sample is falsy (zero or NaN),
    the value the code stores is the linear interpolation. *)
Lemma interpolate_linear (input : Float32Array) ratio i j :
  Forall (fun v => falsy v = false) input ->
  asIndex (Math_floor (ofZ (Z.of_nat i) * ratio)) = Some j ->
  (j < List.length input)%nat ->
  interpolate input ratio i = fround (linear_interpolation input ratio i).
Proof.
  intros Hall Hk Hj.
  assert (Helem : forall k d, element_or input k d = sample_at input k d).
  { intros k d; unfold element_or, sample_at.
    destruct (asIndex k) as [n|]; [|reflexivity].
    destruct (nth_error input n) as [v|] eqn:E; [|reflexivity].
    rewrite Forall_forall in Hall.
    rewrite (Hall v (nth_error_In _ _ E)); reflexivity. }
  unfold interpolate, linear_interpolation; rewrite !Helem.
  assert (Ha : forall d d',
    sample_at input (Math_floor (ofZ (Z.of_nat i) * ratio)) d
    = sample_at input (Math_floor (ofZ (Z.of_nat i) * ratio)) d').
  { intros d d'; unfold sample_at; rewrite Hk.
    destruct (nth_error input j) eqn:E; [reflexivity|].
    apply nth_error_None in E; lia. }
  rewrite (Ha (ofZ 0) (last input (ofZ 0))); reflexivity.
Qed.

End Interpolation.

(** In exact arithmetic the floor index of every output position is an
    index of the input, so on an input without zero samples every output
    element is the linear interpolation. *)
Section ExactInterpolation.
Import Numeric.Exact.
Local Open Scope Q_scope.

Lemma floor_index_in_range (len : nat) (ratio : Q) (i : nat) :
  0 < ratio ->
  (i < Z.to_nat (Qceiling (inject_Z (Z.of_nat len) / ratio)))%nat ->
  exists k,
    asIndex (Math_floor (ofZ (Z.of_nat i) * ratio)%js) = Some k
    /\ (k < len)%nat.
Proof.
  intros Hr Hi.
  cbn [asIndex Math_floor ofZ mul exact].
  set (p := inject_Z (Z.of_nat i) * ratio).
  assert (Hi0 : 0 <= inject_Z (Z.of_nat i))
    by (apply inject_Z_nonneg; lia).
  assert (Hp0 : 0 <= p) by (apply Qmult_le_0_compat; lra).
  assert (Hplt : p < inject_Z (Z.of_nat len)).
  { pose proof (Qceiling_lt (inject_Z (Z.of_nat len) / ratio)) as Hc.
    assert (Hz : (Z.of_nat i <= Qceiling (inject_Z (Z.of_nat len) / ratio) - 1)%Z)
      by lia.
    rewrite Zle_Qle in Hz.
    assert (Hlt : inject_Z (Z.of_nat i) < inject_Z (Z.of_nat len) / ratio)
      by lra.
    apply (Qmult_lt_compat_r _ _ ratio Hr) in Hlt.
    unfold p; setoid_replace (inject_Z (Z.of_nat len))
      with (inject_Z (Z.of_nat len) / ratio * ratio); [exact Hlt|].
    field; lra. }
  pose proof (Qfloor_le p) as Hfl.
  assert (Hf0 : (0 <= Qfloor p)%Z).
  { apply Qfloor_resp_le in Hp0; exact Hp0. }
  assert (Hflt : (Qfloor p < Z.of_nat len)%Z).
  { rewrite Zlt_Qlt; lra. }
  rewrite Qfloor_Z.
  assert (E1 : Qeq_bool (inject_Z (Qfloor p)) (inject_Z (Qfloor p)) = true)
    by (apply Qeq_bool_iff; reflexivity).
  assert (E2 : Qle_bool 0 (inject_Z (Qfloor p)) = true)
    by (apply Qle_bool_iff, inject_Z_nonneg, Hf0).
  rewrite E1, E2; cbn [andb].
  exists (Z.to_nat (Qfloor p)); split; [reflexivity | lia].
Qed.

Lemma downsampleTo16k_interpolates_nonzero (input : list Q) (R : Q) :
  (Z.of_nat (List.length input) <= max_safe_integer)%Z ->
  16000 < R ->
  Forall (fun v => ~ v == 0) input ->
  exists out,
    downsampleTo16k input R = Some out
    /\ forall i, (i < List.length out)%nat ->
         nth_error out i = Some (linear_interpolation input (R / 16000) i).
Proof.
  intros Hmax HR Hnz.
  destruct (downsampleTo16k_exact_length input Hmax HR) as [out [Hout Hlen]].
  exists out; split; [exact Hout|].
  intros i Hi.
  assert (Hne : (R === ofZ 16000)%js = false).
  { destruct (R === ofZ 16000)%js eqn:E; [|reflexivity].
    apply Qeq_bool_iff in E; cbn [ofZ exact] in E.
    change (inject_Z 16000) with 16000 in E; lra. }
  unfold downsampleTo16k in Hout; rewrite Hne in Hout.
  destruct (ToIndex _) as [n|]; [|discriminate].
  injection Hout as <-.
  rewrite length_map, length_seq in Hi, Hlen.
  rewrite nth_error_map, nth_error_seq.
  destruct (Nat.ltb_spec i n) as [_|]; [|lia]; cbn [option_map Nat.add].
  f_equal.
  destruct (@floor_index_in_range (List.length input) (R / 16000) i)
    as [k [Hk Hklt]].
  - apply Qlt_shift_div_l; lra.
  - rewrite <- Hlen; exact Hi.
  - apply (@interpolate_linear Q exact input (R / 16000) i k);
      [| exact Hk | exact Hklt].
    apply Forall_forall; intros v Hv.
    rewrite Forall_forall in Hnz; specialize (Hnz v Hv).
    cbn [falsy exact]; destruct (Qeq_bool v 0) eqn:E; [|reflexivity].
    apply Qeq_bool_iff in E; contradiction.
Qed.

End ExactInterpolation.

Section ZeroNeighbour.
Import PrimFloat.
Local Open Scope float_scope.

(** C6 fails on the code.  A zero sample at [k + 1] is falsy, so
    [input[intIdx + 1] || val1] replaces it by [val1]: for the input
    [0, 1, 0, 5] at 24000 Hz (ratio 1.5), output index 1 has [k = 1] and
    [f = 0.5]; the code stores [1 * 0.5 + 1 * 0.5 = 1] where the linear
    interpolation is [1 * 0.5 + 0 * 0.5 = 0.5].  Every operation involved is
    exact, and the two arithmetics agree. *)
Theorem downsampleTo16k_zero_neighbour :
  downsampleTo16k (number := Numeric.Binary64.binary64) [0; 1; 0; 5] 24000
  = Some [0; 1; 5]
  /\ map (linear_interpolation (number := Numeric.Binary64.binary64)
            [0; 1; 0; 5] 1.5) [0; 1; 2]%nat
     = [0; 0.5; 5]
  /\ option_map (map Qred)
       (downsampleTo16k (number := Numeric.Exact.exact) [0; 1; 0; 5]%Q 24000%Q)
     = Some [0; 1; 5]%Q
  /\ map Qred
       (map (linear_interpolation (number := Numeric.Exact.exact)
               [0; 1; 0; 5]%Q (3 # 2)%Q) [0; 1; 2]%nat)
     = [0; 1 # 2; 5]%Q.
Proof. repeat split; vm_compute; reflexivity. Qed.

End ZeroNeighbour.

(** *** The helpers evaluated in binary64 *)

Section Binary64Examples.
Import PrimFloat Numeric.Binary64.
Local Open Scope float_scope.

Example downsample_48k :
  downsampleTo16k [1; 2; 3; 4; 5; 6; 7] 48000 = Some [1; 4; 7].
Proof. vm_compute; reflexivity. Qed.

Example downsample_16k :
  downsampleTo16k [1; 2; 3] 16000 = Some [1; 2; 3].
Proof. vm_compute; reflexivity. Qed.

Example downsample_interpolates :
  downsampleTo16k [0.5; 1; 0.25; 5] 24000 = Some [0.5; 0.625; 5].
Proof. vm_compute; reflexivity. Qed.

(** The length expression is evaluated in binary64: 201 / (16080 / 16000)
    rounds to just above 200, and 201 samples come out, the last one read
    past the end of the input. *)
Example downsample_rounded_length :
  (201 / (16080 / 16000) = 0x1.9000000000001p+7
   /\ option_map (@List.length _) (downsampleTo16k (repeat 1 201) 16080)
      = Some 201%nat)
  /\ option_map (@List.length _)
       (downsampleTo16k (number := Numeric.Exact.exact) (repeat 1%Q 201) 16080%Q)
     = Some 200%nat.
Proof. repeat split; vm_compute; reflexivity. Qed.

Example pcm16_samples :
  map pcm16 [0.25; -0.25; 1; -1; 2; -2; 0.9999847412109375; nan]
  = [8191; -8192; 32767; -32768; 32767; -32768; 32766; 0]%Z.
Proof. vm_compute; reflexivity. Qed.

Example createPcmBlob_chunk :
  option_map data (createPcmBlob [0.25; -1; 1]) = Some (js "/x8AgP9/").
Proof. vm_compute; reflexivity. Qed.

Example decodeAudioData_chunk :
  match decodeBase64 (js "/x8AgP9/") with
  | Some bytes => option_map channelData (decodeAudioData bytes 24000)
  | None => None
  end
  = Some [0.249969482421875; -1; 0.999969482421875].
Proof. vm_compute; reflexivity. Qed.

Example decodeAudioData_rejects_odd_and_empty :
  decodeAudioData [Byte.x00; Byte.x01; Byte.x02] 24000 = None
  /\ decodeAudioData [] 24000 = None.
Proof. split; reflexivity. Qed.

End Binary64Examples.

End Audio.

(** ** The session client ([services/liveClient.ts], [handleOnMessage])

    [handleOnMessage] is an [async] method with a single [await], on the
    promise of [decodeAudioData].  Its body up to that point runs when the
    message arrives ([receive]); the rest, which schedules the decoded
    buffer, runs as a continuation ([resume]), and handlers of other
    messages may run in between.  [handleOnMessage] below is the execution
    in which the continuation follows at once.

    Times are on the audio clock, in seconds, read in exact arithmetic.
    Created [AudioBufferSourceNode]s are told apart by the order of their
    creation. *)

Module LiveClient.
Import JS Base64 Numeric Numeric.Exact Audio.
Local Open Scope js_scope.

Record Transcription := { text : option jsstring }.

(** [message.serverContent], with
    [modelTurn?.parts?.[0]?.inlineData?.data] as [audioData]. *)
Record ServerContent := {
  interrupted : bool;
  inputTranscription : option Transcription;
  outputTranscription : option Transcription;
  turnComplete : bool;
  audioData : option jsstring
}.

Definition LiveServerMessage := option ServerContent.

Record GeminiLiveClient := {
  audioContext : bool;                       (* is it non-null *)
  currentInputTranscription : jsstring;
  currentOutputTranscription : jsstring;
  nextStartTime : Q;
  scheduledSources : list nat;               (* in insertion order *)
  created : nat                              (* source nodes created so far *)
}.

(** What the handler does to the outside. *)
Inductive Effect :=
| onTranscriptUpdate (t : jsstring) (isUser isComplete : bool)
| onAudioVisualizer (meanSquare : Q)   (* called with sqrt(meanSquare) * 5 *)
| start (source : nat) (startTime : Q) (buffer : AudioBuffer (num := Q))
| stop (source : nat)
| console_error.

(** The promise of [decodeAudioData] awaited by a handler. *)
Inductive Pending :=
| resolved (buffer : AudioBuffer (num := Q))
| rejected.

(** [acc += t.text]: an absent [text] is appended as ["undefined"]. *)
Definition appended (acc : jsstring) (t : Transcription) : jsstring :=
  concat acc (match text t with Some s => s | None => js "undefined" end).

Definition set_input (c : GeminiLiveClient) (s : jsstring) :=
  {| audioContext := audioContext c;
     currentInputTranscription := s;
     currentOutputTranscription := currentOutputTranscription c;
     nextStartTime := nextStartTime c;
     scheduledSources := scheduledSources c;
     created := created c |}.

Definition set_output (c : GeminiLiveClient) (s : jsstring) :=
  {| audioContext := audioContext c;
     currentInputTranscription := currentInputTranscription c;
     currentOutputTranscription := s;
     nextStartTime := nextStartTime c;
     scheduledSources := scheduledSources c;
     created := created c |}.

(** Part 1 of the handler: interruption. *)
Definition interrupt (c : GeminiLiveClient) : GeminiLiveClient * list Effect :=
  ({| audioContext := audioContext c;
      currentInputTranscription := [];
      currentOutputTranscription := [];
      nextStartTime := 0;
      scheduledSources := [];
      created := created c |},
   map stop (scheduledSources c)).

(** Part 2: transcription deltas. *)
Definition transcriptions (content : ServerContent) (c : GeminiLiveClient)
  : GeminiLiveClient * list Effect :=
  let '(c, e1) :=
    match inputTranscription content with
    | Some t =>
        let acc := appended (currentInputTranscription c) t in
        (set_input c acc, [onTranscriptUpdate acc true false])
    | None => (c, [])
    end in
  let '(c, e2) :=
    match outputTranscription content with
    | Some t =>
        let acc := appended (currentOutputTranscription c) t in
        (set_output c acc, [onTranscriptUpdate acc false false])
    | None => (c, [])
    end in
  (c, e1 ++ e2).

(** Part 3: turn completion. *)
Definition completion (content : ServerContent) (c : GeminiLiveClient)
  : GeminiLiveClient * list Effect :=
  if turnComplete content then
    let '(c, e1) :=
      if truthy (trim (currentInputTranscription c))
      then (set_input c [],
            [onTranscriptUpdate (currentInputTranscription c) true true])
      else (c, []) in
    let '(c, e2) :=
      if truthy (trim (currentOutputTranscription c))
      then (set_output c [],
            [onTranscriptUpdate (currentOutputTranscription c) false true])
      else (c, []) in
    (c, e1 ++ e2)
  else (c, []).

(** Part 4, up to the [await]: a throwing [decodeBase64] is caught at once;
    [decodeAudioData] runs to completion and leaves its promise. *)
Definition decoding (content : ServerContent) (c : GeminiLiveClient)
  : list Effect * option Pending :=
  match audioData content with
  | Some d =>
      if truthy d && audioContext c then
        match decodeBase64 d with
        | None => ([console_error], None)
        | Some bytes =>
            match decodeAudioData bytes (ofZ 24000) with
            | Some buffer => ([], Some (resolved buffer))
            | None => ([], Some rejected)
            end
        end
      else ([], None)
  | None => ([], None)
  end.

(** The handler from its start to its [await] (or to its end). *)
Definition receive (message : LiveServerMessage) (c : GeminiLiveClient)
  : GeminiLiveClient * list Effect * option Pending :=
  match message with
  | None => (c, [], None)
  | Some content =>
      if interrupted content then
        let '(c, e) := interrupt c in (c, e, None)
      else
        let '(c, e2) := transcriptions content c in
        let '(c, e3) := completion content c in
        let '(e4, p) := decoding content c in
        (c, e2 ++ e3 ++ e4, p)
  end.

(** [sum] over every hundredth sample, divided by [length / 100]. *)
Fixpoint every_100th (n : nat) (data : list Q) : list Q :=
  match data with
  | [] => []
  | x :: r =>
      match n with
      | O => x :: every_100th 99 r
      | S n' => every_100th n' r
      end
  end.

Definition meanSquare (channelData : list Q) : Q :=
  fold_left (fun sum x => sum + x * x) (every_100th 0 channelData) (ofZ 0)
  / (ofZ (Z.of_nat (List.length channelData)) / ofZ 100).

(** The handler after its [await], at audio clock time [now]:
    [source.start] throws a [RangeError] for a negative time, which the
    [catch] logs. *)
Definition resume (now : Q) (p : Pending) (c : GeminiLiveClient)
  : GeminiLiveClient * list Effect :=
  match p with
  | rejected => (c, [console_error])
  | resolved buffer =>
      let volume := onAudioVisualizer (meanSquare (channelData buffer)) in
      let source := created c in
      let startTime := Math_max now (nextStartTime c) in
      if startTime <? ofZ 0 then
        ({| audioContext := audioContext c;
            currentInputTranscription := currentInputTranscription c;
            currentOutputTranscription := currentOutputTranscription c;
            nextStartTime := nextStartTime c;
            scheduledSources := scheduledSources c;
            created := S (created c) |},
         [volume; console_error])
      else
        ({| audioContext := audioContext c;
            currentInputTranscription := currentInputTranscription c;
            currentOutputTranscription := currentOutputTranscription c;
            nextStartTime := startTime + duration buffer;
            scheduledSources := scheduledSources c ++ [source];
            created := S (created c) |},
         [volume; start source startTime buffer])
  end.

(** [source.onended]: the source leaves the tracked set. *)
Definition ended (source : nat) (c : GeminiLiveClient) : GeminiLiveClient :=
  {| audioContext := audioContext c;
     currentInputTranscription := currentInputTranscription c;
     currentOutputTranscription := currentOutputTranscription c;
     nextStartTime := nextStartTime c;
     scheduledSources :=
       filter (fun s => negb (Nat.eqb s source)) (scheduledSources c);
     created := created c |}.

(** A handler that is not interleaved with any other. *)
Definition handleOnMessage (now : Q) (message : LiveServerMessage)
    (c : GeminiLiveClient) : GeminiLiveClient * list Effect :=
  let '(c, e, p) := receive message c in
  match p with
  | Some p => let '(c, e') := resume now p c in (c, e ++ e')
  | None => (c, e)
  end.

(** What can happen to a client, one event at a time. *)
Inductive Event :=
| Receive (message : LiveServerMessage)
| Resume (now : Q) (p : Pending)
| Ended (source : nat).

Definition step (ev : Event) (c : GeminiLiveClient)
  : GeminiLiveClient * list Effect :=
  match ev with
  | Receive m => let '(c, e, _) := receive m c in (c, e)
  | Resume now p => resume now p c
  | Ended s => (ended s c, [])
  end.

Fixpoint run_events (evs : list Event) (c : GeminiLiveClient)
  : GeminiLiveClient * list Effect :=
  match evs with
  | [] => (c, [])
  | ev :: rest =>
      let '(c, e) := step ev c in
      let '(c, e') := run_events rest c in
      (c, e ++ e')
  end.

(** *** Interruption (C2) *)

(** C2.  Handling a message whose content carries the interrupted flag
    empties both turn accumulators, calls [stop] on every tracked source and
    empties the tracked set (and resets [nextStartTime]); these [stop] calls
    are all the handler does: no transcript callback is invoked, nothing is
    decoded, no source is created or started, and the handler ends without
    awaiting anything. *)
Theorem interrupted_message_only_flushes :
  forall now content c,
    interrupted content = true ->
    exists c',
      receive (Some content) c = (c', map stop (scheduledSources c), None)
      /\ handleOnMessage now (Some content) c
         = (c', map stop (scheduledSources c))
      /\ currentInputTranscription c' = []
      /\ currentOutputTranscription c' = []
      /\ scheduledSources c' = []
      /\ nextStartTime c' = 0%Q
      /\ created c' = created c
      /\ audioContext c' = audioContext c.
Proof.
  intros now content c H.
  unfold handleOnMessage, receive; rewrite H; cbn.
  eexists; repeat split.
Qed.

Definition barge_in : ServerContent :=
  {| interrupted := true;
     inputTranscription := Some {| text := Some (js "hello") |};
     outputTranscription := Some {| text := Some (js "bonjour") |};
     turnComplete := true;
     audioData := Some (js "/x8AgP9/") |}.

Definition speaking : GeminiLiveClient :=
  {| audioContext := true;
     currentInputTranscription := js "hel";
     currentOutputTranscription := js "bon";
     nextStartTime := 5 # 2;
     scheduledSources := [3; 4]%nat;
     created := 5 |}.

Lemma interrupted_message_witness :
  exists c',
    receive (Some barge_in) speaking = (c', [stop 3; stop 4], None)
    /\ handleOnMessage 2 (Some barge_in) speaking = (c', [stop 3; stop 4])
    /\ currentInputTranscription c' = []
    /\ currentOutputTranscription c' = []
    /\ scheduledSources c' = []
    /\ nextStartTime c' = 0%Q
    /\ created c' = 5%nat
    /\ audioContext c' = true.
Proof.
  apply (@interrupted_message_only_flushes 2%Q barge_in speaking).
  reflexivity.
Defined.

(** The same message without the flag does all the rest. *)
Example uninterrupted_message :
  snd (handleOnMessage 2
         (Some {| interrupted := false;
                  inputTranscription := inputTranscription barge_in;
                  outputTranscription := outputTranscription barge_in;
                  turnComplete := true;
                  audioData := audioData barge_in |})
         speaking)
  = [onTranscriptUpdate (js "helhello") true false;
     onTranscriptUpdate (js "bonbonjour") false false;
     onTranscriptUpdate (js "helhello") true true;
     onTranscriptUpdate (js "bonbonjour") false true;
     onAudioVisualizer ((8191 / 32768) * (8191 / 32768) / (3 / 100))%Q;
     start 5 (5 # 2)
       {| sampleRate := 24000%Q;
          channelData := [8191 / 32768; -32768 / 32768; 32767 / 32768]%Q |}].
Proof. vm_compute; reflexivity. Qed.

(** *** Playback ordering (C3) *)

Local Open Scope Q_scope.

(** Events that neither schedule nor flush: messages without the
    interrupted flag (up to their [await]), continuations of a failed
    decode, and sources reaching their end. *)
Definition quiet (ev : Event) : Prop :=
  match ev with
  | Receive (Some content) => interrupted content = false
  | Receive None => True
  | Resume _ (resolved _) => False
  | Resume _ rejected => True
  | Ended _ => True
  end.

Lemma transcriptions_clock content c :
  nextStartTime (fst (transcriptions content c)) = nextStartTime c.
Proof.
  unfold transcriptions.
  destruct (inputTranscription content), (outputTranscription content);
    reflexivity.
Qed.

Lemma completion_clock content c :
  nextStartTime (fst (completion content c)) = nextStartTime c.
Proof.
  unfold completion; destruct (turnComplete content); [|reflexivity].
  destruct (truthy (trim (currentInputTranscription c)));
    cbn [set_input currentOutputTranscription];
    destruct (truthy (trim (currentOutputTranscription c))); reflexivity.
Qed.

Lemma quiet_step_clock ev c :
  quiet ev -> nextStartTime (fst (step ev c)) = nextStartTime c.
Proof.
  destruct ev as [[content|] | now [b|] | s]; cbn [quiet step];
    try reflexivity; try contradiction.
  intro H; unfold receive; rewrite H.
  pose proof (transcriptions_clock content c) as H1.
  destruct (transcriptions content c) as [c1 e1]; cbn [fst] in H1.
  pose proof (completion_clock content c1) as H2.
  destruct (completion content c1) as [c2 e2]; cbn [fst] in H2.
  destruct (decoding content c2) as [e4 p]; cbn [fst]; congruence.
Qed.

Lemma quiet_run_clock evs : forall c,
  Forall quiet evs -> nextStartTime (fst (run_events evs c)) = nextStartTime c.
Proof.
  induction evs as [|ev evs IH]; intros c H; [reflexivity|].
  inversion H as [|? ? Hq Hr]; subst; cbn [run_events].
  pose proof (quiet_step_clock ev c Hq) as H1.
  destruct (step ev c) as [c1 e1]; cbn [fst] in H1.
  pose proof (IH c1 Hr) as H2.
  destruct (run_events evs c1) as [c2 e2]; cbn [fst] in *; congruence.
Qed.

Lemma Math_max_bounds (a b : Q) :
  a <= Math_max a b /\ b <= Math_max a b.
Proof.
  cbn [Math_max exact]; destruct (Qltb a b) eqn:E.
  - apply Qltb_iff in E; lra.
  - apply Qltb_false_iff in E; lra.
Qed.

(** The scheduling step at a non-negative clock reading. *)
Lemma resume_schedules now buffer c :
  0 <= now ->
  resume now (resolved buffer) c
  = ({| audioContext := audioContext c;
        currentInputTranscription := currentInputTranscription c;
        currentOutputTranscription := currentOutputTranscription c;
        nextStartTime :=
          (Math_max now (nextStartTime c) + duration buffer)%js;
        scheduledSources := scheduledSources c ++ [created c];
        created := S (created c) |},
     [onAudioVisualizer (meanSquare (channelData buffer));
      start (created c) (Math_max now (nextStartTime c)) buffer]).
Proof.
  intro H; unfold resume.
  destruct (Math_max_bounds now (nextStartTime c)) as [H1 _].
  assert (E : (Math_max now (nextStartTime c) <? ofZ 0)%js = false)
    by (apply Qltb_false_iff; change (ofZ 0) with 0; lra).
  rewrite E; reflexivity.
Qed.

(** Two chunks scheduled one after the other, with [between] happening in
    the meantime: what is started, and when. *)
Definition chained (c : GeminiLiveClient) (now1 : Q) (b1 : AudioBuffer)
    (between : list Event) (now2 : Q) (b2 : AudioBuffer) : Prop :=
  exists c1 c2 c3 e v1 v2 s1 s2,
    resume now1 (resolved b1) c = (c1, [v1; start (created c) s1 b1])
    /\ s1 = Math_max now1 (nextStartTime c)
    /\ nextStartTime c1 = (s1 + duration b1)%js
    /\ run_events between c1 = (c2, e)
    /\ resume now2 (resolved b2) c2 = (c3, [v2; start (created c2) s2 b2])
    /\ s2 = Math_max now2 (nextStartTime c2)
    /\ s1 + duration b1 <= s2.

(** A chunk scheduled after an interrupted message. *)
Definition restarted (c : GeminiLiveClient) (content : ServerContent)
    (between : list Event) (now : Q) (b : AudioBuffer) : Prop :=
  exists c1 e1 c2 e c3 v s,
    receive (Some content) c = (c1, e1, None)
    /\ run_events between c1 = (c2, e)
    /\ resume now (resolved b) c2 = (c3, [v; start (created c2) s b])
    /\ s = Math_max now 0
    /\ s == now.

(** The chunks started by a series of effects, each with its start time
    and its duration. *)
Definition schedule (es : list Effect) : list (Q * Q) :=
  flat_map (fun e => match e with
                     | start _ t b => [(t, duration b)]
                     | _ => []
                     end) es.

(** No chunk starts before [bound], nor before the chunk ahead of it has
    played to its end. *)
Inductive back_to_back : Q -> list (Q * Q) -> Prop :=
| back_to_back_nil bound : back_to_back bound []
| back_to_back_cons bound t d rest :
    bound <= t -> back_to_back (t + d) rest ->
    back_to_back bound ((t, d) :: rest).

(** Anything but a message with the interrupted flag. *)
Definition uninterrupted (ev : Event) : Prop :=
  match ev with
  | Receive (Some content) => interrupted content = false
  | _ => True
  end.

Lemma schedule_app es es' : schedule (es ++ es') = schedule es ++ schedule es'.
Proof. unfold schedule; apply flat_map_app. Qed.

Lemma receive_schedules_nothing content c :
  interrupted content = false ->
  schedule (snd (step (Receive (Some content)) c)) = [].
Proof.
  intro H; cbn [step]; unfold receive; rewrite H.
  unfold transcriptions, completion, decoding.
  destruct (inputTranscription content), (outputTranscription content),
    (turnComplete content), (audioData content) as [d|];
    cbn [set_input set_output currentInputTranscription
         currentOutputTranscription audioContext];
    repeat match goal with
    | |- context [if ?b then _ else _] => destruct b
    | |- context [match decodeBase64 ?d with _ => _ end] =>
        destruct (decodeBase64 d)
    | |- context [match decodeAudioData ?x ?r with _ => _ end] =>
        destruct (decodeAudioData x r)
    end; reflexivity.
Qed.

Lemma run_events_back_to_back evs : forall c,
  Forall uninterrupted evs ->
  back_to_back (nextStartTime c) (schedule (snd (run_events evs c))).
Proof.
  induction evs as [|ev evs IH]; intros c H; [constructor|].
  inversion H as [|? ? Hu Hr]; subst; cbn [run_events].
  specialize (IH (fst (step ev c)) Hr).
  destruct ev as [[content|] | now [b|] | s].
  - (* a message *)
    pose proof (receive_schedules_nothing content c Hu) as Hs.
    pose proof (quiet_step_clock (Receive (Some content)) c Hu) as Hc.
    destruct (step (Receive (Some content)) c) as [c1 e1].
    cbn [fst snd] in *.
    destruct (run_events evs c1) as [c2 e2]; cbn [snd] in *.
    rewrite schedule_app, Hs, <- Hc; exact IH.
  - cbn [step receive fst] in *.
    destruct (run_events evs c) as [c2 e2]; exact IH.
  - (* a decoded chunk *)
    cbn [step] in *; unfold resume in *.
    destruct (Math_max_bounds now (nextStartTime c)) as [_ Hb].
    destruct (Math_max now (nextStartTime c) <? ofZ 0)%js;
      cbn [fst nextStartTime] in IH;
      match goal with
      | |- context [run_events evs ?c1] =>
          destruct (run_events evs c1) as [c2 e2]
      end; cbn [snd app schedule flat_map] in *.
    + exact IH.
    + constructor; [exact Hb | exact IH].
  - cbn [step resume fst] in *.
    destruct (run_events evs c) as [c2 e2]; exact IH.
  - cbn [step fst] in *.
    change (nextStartTime (ended s c)) with (nextStartTime c) in IH.
    destruct (run_events evs (ended s c)) as [c2 e2]; exact IH.
Qed.

(** C3.  Over any series of events without an interruption, the chunks are
    started back to back: each start is at least the previous start plus the
    previous duration.  Each decoded chunk is started at
    [max (now, nextStartTime)] and [nextStartTime] advances to that start
    plus the chunk's duration.  After an interrupted message the next chunk
    starts at [max (now, 0)], that is at the current clock time, whatever had
    been scheduled before. *)
Theorem playback_ordering :
  (forall c evs,
     Forall uninterrupted evs ->
     back_to_back (nextStartTime c) (schedule (snd (run_events evs c))))
  /\ (forall c now1 b1 between now2 b2,
        0 <= now1 -> 0 <= now2 -> Forall quiet between ->
        chained c now1 b1 between now2 b2)
  /\ (forall c content between now b,
        interrupted content = true -> 0 <= now -> Forall quiet between ->
        restarted c content between now b).
Proof.
  split; [intros c evs H; apply run_events_back_to_back, H | split].
  - intros c now1 b1 between now2 b2 H1 H2 Hq; unfold chained.
    pose proof (resume_schedules b1 c H1) as R1.
    set (c1 := fst (resume now1 (resolved b1) c)).
    pose proof (quiet_run_clock c1 Hq) as Hclock.
    set (c2 := fst (run_events between c1)) in *.
    pose proof (resume_schedules b2 c2 H2) as R2.
    exists c1, c2, (fst (resume now2 (resolved b2) c2)),
      (snd (run_events between c1)).
    do 4 eexists.
    split; [subst c1; rewrite R1; reflexivity|].
    split; [reflexivity|].
    split; [subst c1; rewrite R1; reflexivity|].
    split; [subst c2; destruct (run_events between c1); reflexivity|].
    split; [rewrite R2; reflexivity|].
    split; [reflexivity|].
    rewrite Hclock; subst c1; rewrite R1; cbn [fst nextStartTime].
    apply Math_max_bounds.
  - intros c content between now b Hi Hn Hq; unfold restarted.
    unfold receive; rewrite Hi.
    set (c1 := fst (interrupt c)).
    assert (H0 : nextStartTime c1 = 0) by reflexivity.
    pose proof (quiet_run_clock c1 Hq) as Hclock.
    set (c2 := fst (run_events between c1)) in *.
    pose proof (resume_schedules b c2 Hn) as R.
    exists c1, (snd (interrupt c)), c2, (snd (run_events between c1)),
      (fst (resume now (resolved b) c2)).
    do 2 eexists.
    split; [reflexivity|].
    split; [subst c2; destruct (run_events between c1); reflexivity|].
    split; [rewrite R; reflexivity|].
    rewrite Hclock, H0; split; [reflexivity|].
    cbn [Math_max exact].
    destruct (Qltb now 0) eqn:E; [|reflexivity].
    apply Qltb_iff in E; lra.
Qed.

Definition chunk : AudioBuffer (num := Q) :=
  {| sampleRate := 24000;
     channelData := [8191 / 32768; -32768 / 32768; 32767 / 32768] |}.

Definition delta (d : string) : ServerContent :=
  {| interrupted := false;
     inputTranscription := None;
     outputTranscription := Some {| text := Some (js d) |};
     turnComplete := false;
     audioData := None |}.

Lemma playback_ordering_witness :
  back_to_back (5 # 2)
    (schedule (snd (run_events
                      [Resume 1 (resolved chunk);
                       Receive (Some (delta "jour"));
                       Resume (3 # 2) (resolved chunk)] speaking)))
  /\ chained speaking 1 chunk [Receive (Some (delta "jour")); Ended 3]
       (3 # 2) chunk
  /\ restarted speaking barge_in [Receive (Some (delta "salut"))] 7 chunk.
Proof.
  split; [|split].
  - apply (proj1 playback_ordering speaking); repeat constructor.
  - apply (proj1 (proj2 playback_ordering)); [discriminate | discriminate |].
    repeat constructor.
  - apply (proj2 (proj2 playback_ordering));
      [reflexivity | discriminate |].
    repeat constructor.
Defined.

(** An audio delta handled without interleaving is its scheduling step. *)
Lemma handleOnMessage_audio now content c d bytes buffer :
  interrupted content = false ->
  inputTranscription content = None ->
  outputTranscription content = None ->
  turnComplete content = false ->
  audioData content = Some d ->
  truthy d = true -> audioContext c = true ->
  decodeBase64 d = Some bytes ->
  decodeAudioData bytes (ofZ 24000) = Some buffer ->
  handleOnMessage now (Some content) c = resume now (resolved buffer) c.
Proof.
  intros Hi Hin Hout Htc Ha Hd Hc Hb Hbuf.
  unfold handleOnMessage, receive, transcriptions, completion, decoding.
  rewrite Hi, Hin, Hout, Htc, Ha, Hd, Hc, Hb, Hbuf; cbn [app andb].
  destruct (resume now (resolved buffer) c); reflexivity.
Qed.

(** Three audio deltas arriving at clock times 1, 1.00005 and 3, each of
    three frames (0.000125 s): the second waits for the first to finish,
    the third starts on arrival. *)
Example three_deltas :
  let audio := Some {| interrupted := false;
                       inputTranscription := None;
                       outputTranscription := None;
                       turnComplete := false;
                       audioData := Some (js "/x8AgP9/") |} in
  let idle := {| audioContext := true;
                 currentInputTranscription := [];
                 currentOutputTranscription := [];
                 nextStartTime := 0;
                 scheduledSources := [];
                 created := 0 |} in
  let '(c1, e1) := handleOnMessage 1 audio idle in
  let '(c2, e2) := handleOnMessage (100005 # 100000) audio c1 in
  let '(c3, e3) := handleOnMessage 3 audio c2 in
  map (fun e => match e with start _ t _ => Some (Qred t) | _ => None end)
      (e1 ++ e2 ++ e3)
  = [None; Some 1; None; Some (8001 # 8000); None; Some 3]
  /\ scheduledSources c3 = [0; 1; 2]%nat
  /\ Qred (nextStartTime c3) = 24001 # 8000.
Proof. vm_compute; repeat split. Qed.

End LiveClient.

(** ** The client wired to the reducer

    The application passes [handleTranscriptUpdate] to the client as its
    [onTranscriptUpdate] callback: every such effect becomes one update of
    the transcript array, at the wall-clock time [now] of the message. *)

Module Session.
Import JS Transcript LiveClient.

Definition deliver (now : Z) (prev : list TranscriptItem) (e : Effect)
  : list TranscriptItem :=
  match e with
  | onTranscriptUpdate t isUser c => handleTranscriptUpdate now now t isUser c prev
  | _ => prev
  end.

(** Messages, each with the wall-clock time of its arrival, handled one
    after the other from a fresh client and an empty transcript. *)
Fixpoint converse (ms : list (Z * ServerContent)) (c : GeminiLiveClient)
    (prev : list TranscriptItem) : GeminiLiveClient * list TranscriptItem :=
  match ms with
  | [] => (c, prev)
  | (now, content) :: rest =>
      let '(c, es) := handleOnMessage 0 (Some content) c in
      converse rest c (fold_left (deliver now) es prev)
  end.

Definition idle : GeminiLiveClient :=
  {| audioContext := true;
     currentInputTranscription := [];
     currentOutputTranscription := [];
     nextStartTime := 0;
     scheduledSources := [];
     created := 0 |}.

Definition heard (t : string) : ServerContent :=
  {| interrupted := false;
     inputTranscription := Some {| LiveClient.text := Some (js t) |};
     outputTranscription := None;
     turnComplete := false;
     audioData := None |}.

Definition said (t : string) : ServerContent :=
  {| interrupted := false;
     inputTranscription := None;
     outputTranscription := Some {| LiveClient.text := Some (js t) |};
     turnComplete := false;
     audioData := None |}.

(** The user is heard while the translation is still being spoken: the
    first user bubble stays incomplete behind a second one. *)
Example overlapping_speech :
  snd (converse [(1, heard "a"); (2, said "b"); (3, heard "b")]%Z idle [])
  = [fresh 1 1 user (js "a") false;
     fresh 2 2 model (js "b") false;
     fresh 3 3 user (js "ab") false].
Proof. reflexivity. Qed.

(** One message carrying both transcriptions: two bubbles, one [id]. *)
Example same_millisecond :
  map id
    (snd (converse
            [(5, {| interrupted := false;
                    inputTranscription :=
                      Some {| LiveClient.text := Some (js "a") |};
                    outputTranscription :=
                      Some {| LiveClient.text := Some (js "b") |};
                    turnComplete := false;
                    audioData := None |})]%Z idle []))
  = [js "5"; js "5"].
Proof. reflexivity. Qed.

(** An interruption discards the partial text: nothing is emitted for it,
    and the next delta starts afresh. *)
Example interruption_discards_partial_text :
  let barge := {| interrupted := true;
                  inputTranscription := None;
                  outputTranscription := None;
                  turnComplete := false;
                  audioData := None |} in
  snd (converse [(1, said "bon"); (2, barge); (3, said "salut")]%Z idle [])
  = [rewritten (fresh 1 1 model (js "bon") false) (js "salut") false 3].
Proof. reflexivity. Qed.

End Session.

(** * Further properties of the code *)

(** ** The transcript reducer, continued *)

Module TranscriptFacts.
Import JS Transcript.

(** What identifies a bubble on screen: its [id] and its speaker. *)
Definition key (x : TranscriptItem) : jsstring * Source := (id x, source x).

Definition clock_advances (us : list Update) : Prop :=
  forall pre u post, us = pre ++ u :: post ->
    forall v, In v pre -> (u_now1 v < u_now1 u)%Z.

Lemma update_last now1 now2 T isUser flag prev :
  ~ whitespace_only T ->
  exists items L,
    handleTranscriptUpdate now1 now2 T isUser flag prev = items ++ [L]
    /\ source L = currentSource isUser
    /\ is_prefix T (text L)
    /\ (flag = true -> isComplete L = true).
Proof.
  intro Hnb.
  pose proof (handleTranscriptUpdate_sound now1 now2 T isUser flag prev) as H.
  remember (handleTranscriptUpdate _ _ _ _ _ prev) as next eqn:E; clear E.
  destruct H; try contradiction.
  - exists items, (rewritten L T flag now1); repeat split; auto.
    apply is_prefix_refl.
  - exists items, L; repeat split; auto. subst T; apply is_prefix_refl.
  - exists items, L; repeat split; auto.
  - exists items, (rewritten L T flag now1); repeat split; auto.
    apply is_prefix_refl.
  - exists (items ++ [L]), (fresh now1 now2 (currentSource isUser) T flag).
    rewrite <- app_assoc; repeat split; auto. apply is_prefix_refl.
  - exists (items ++ [L]), (fresh now1 now2 (currentSource isUser) T flag).
    rewrite <- app_assoc; repeat split; auto. apply is_prefix_refl.
  - exists [], (fresh now1 now2 (currentSource isUser) T flag).
    repeat split; auto. apply is_prefix_refl.
Qed.

(** X1.  After an update with non-blank text the array is not empty, its
    last item belongs to the speaker of the update, and that item's text
    starts with the text of the update. *)
Theorem update_shows_in_last_item :
  forall now1 now2 T isUser flag prev,
    ~ whitespace_only T ->
    exists items L,
      handleTranscriptUpdate now1 now2 T isUser flag prev = items ++ [L]
      /\ source L = currentSource isUser
      /\ is_prefix T (text L).
Proof.
  intros now1 now2 T isUser flag prev H.
  destruct (update_last now1 now2 isUser flag prev H)
    as [items [L [E [Hs [Hp _]]]]].
  exists items, L; auto.
Qed.

Lemma update_shows_in_last_item_witness :
  exists items L,
    handleTranscriptUpdate 2 2 (js "Hello") true true [finalized "Hello World"]
    = items ++ [L]
    /\ source L = currentSource true
    /\ is_prefix (js "Hello") (text L).
Proof.
  apply update_shows_in_last_item.
  intro H; inversion H as [|? ? Hc _]; discriminate Hc.
Defined.

(** X2.  A final update delivered twice in a row, at whatever clock times,
    leaves the array as one delivery does: no second bubble, no change. *)
Theorem repeated_final_update_is_absorbed :
  forall now1 now2 now1' now2' T isUser prev,
    handleTranscriptUpdate now1' now2' T isUser true
      (handleTranscriptUpdate now1 now2 T isUser true prev)
    = handleTranscriptUpdate now1 now2 T isUser true prev.
Proof.
  intros now1 now2 now1' now2' T isUser prev.
  destruct (negb (truthy (trim T))) eqn:Eb.
  - unfold handleTranscriptUpdate; rewrite !Eb; reflexivity.
  - pose proof Eb as Hnb; apply blank_test_false in Hnb.
    destruct (update_last now1 now2 isUser true prev Hnb)
      as [items [L [-> [Hs [Hp Hc]]]]].
    specialize (Hc eq_refl).
    unfold handleTranscriptUpdate at 1.
    rewrite Eb, lastItem_snoc.
    assert (Es : Source_eqb (source L) (currentSource isUser) = true)
      by (apply Source_eqb_iff, Hs).
    rewrite Es, Hc; cbn [negb andb].
    apply startsWith_iff in Hp; rewrite Hp.
    destruct (streq (text L) T); reflexivity.
Qed.

Lemma apply_update_keys prev u :
  exists extra,
    map key (apply_update prev u) = map key prev ++ extra
    /\ (List.length extra <= 1)%nat.
Proof.
  destruct (apply_update_shape prev u) as [-> | [[items [L [-> ->]]] | ->]].
  - exists []; rewrite app_nil_r; split; [reflexivity | simpl; lia].
  - exists []; rewrite app_nil_r, !map_app; split; [reflexivity | simpl; lia].
  - eexists; rewrite map_app; split; [reflexivity | simpl; lia].
Qed.

Lemma fold_keys us : forall prev,
  exists extra,
    map key (fold_left apply_update us prev) = map key prev ++ extra
    /\ (List.length extra <= List.length us)%nat.
Proof.
  induction us as [|u us IH]; intro prev; cbn [fold_left].
  - exists []; rewrite app_nil_r; split; [reflexivity | simpl; lia].
  - destruct (IH (apply_update prev u)) as [e2 [E2 L2]].
    destruct (apply_update_keys prev u) as [e1 [E1 L1]].
    exists (e1 ++ e2); rewrite E2, E1, <- app_assoc; split; [reflexivity|].
    rewrite length_app; simpl; lia.
Qed.

(** X3.  Bubbles only accumulate: whatever updates follow, the items
    already in the array keep their place, their [id] and their speaker, and
    each update adds at most one item. *)
Theorem bubbles_only_accumulate :
  forall us us',
    exists extra,
      map key (run (us ++ us')) = map key (run us) ++ extra
      /\ (List.length extra <= List.length us')%nat.
Proof. intros us us'; rewrite run_app; apply fold_keys. Qed.

Lemma apply_update_nonblank prev u :
  Forall (fun x => ~ whitespace_only (text x)) prev ->
  Forall (fun x => ~ whitespace_only (text x)) (apply_update prev u).
Proof.
  unfold apply_update.
  pose proof (handleTranscriptUpdate_sound (u_now1 u) (u_now2 u) (u_text u)
                (u_isUser u) (u_isComplete u) prev) as H.
  remember (handleTranscriptUpdate _ _ _ _ _ prev) as next eqn:E; clear E.
  destruct H; intro Hall; try exact Hall;
    repeat match goal with
    | H : Forall _ (_ ++ _) |- _ =>
        apply Forall_app in H; destruct H
    | |- Forall _ (_ ++ _) => apply Forall_app; split
    end; try assumption;
    (constructor; [cbn [text rewritten fresh]; assumption | constructor]).
Qed.

(** X4.  No bubble is ever blank: in every array reached from the empty
    one, every item has text that is not whitespace only. *)
Theorem no_blank_bubble :
  forall us, Forall (fun x => ~ whitespace_only (text x)) (run us).
Proof.
  intro us; unfold run.
  assert (H : forall prev,
    Forall (fun x => ~ whitespace_only (text x)) prev ->
    Forall (fun x => ~ whitespace_only (text x))
           (fold_left apply_update us prev)).
  { induction us as [|u us IH]; intros prev Hp; cbn [fold_left];
      [exact Hp | apply IH, apply_update_nonblank, Hp]. }
  apply H; constructor.
Qed.

(** X5.  While the clock reading of every update is later than those of
    the updates before it, all [id]s in the array are pairwise distinct. *)
Theorem ids_distinct_when_clock_advances :
  forall us, clock_advances us -> NoDup (map id (run us)).
Proof.
  induction us as [|u us IH] using rev_ind; intro Hc; [constructor|].
  assert (Hc' : clock_advances us).
  { intros pre w post E v Hv.
    apply (Hc pre w (post ++ [u])); [|exact Hv].
    rewrite E, <- app_assoc; reflexivity. }
  specialize (IH Hc'); rewrite run_snoc.
  destruct (apply_update_shape (run us) u) as [-> | [[items [L [E ->]]] | ->]].
  - exact IH.
  - rewrite E in IH; rewrite map_app in *; exact IH.
  - rewrite map_app; cbn [map fresh id].
    apply NoDup_app; [exact IH | repeat constructor; intros [] |].
    intros i Hi [<- | []].
    destruct (ids_from_clock us _ Hi) as [v [Hv Ev]].
    apply toString_inj in Ev.
    specialize (Hc us u [] eq_refl v Hv); lia.
Qed.

Lemma ids_distinct_witness :
  NoDup (map id (run [upd "a" true false 1; upd "b" false false 2;
                      upd "ab" true false 3])).
Proof.
  apply ids_distinct_when_clock_advances.
  intros pre u post E v Hv.
  destruct pre as [|p0 [|p1 [|p2 [|p3 pre]]]]; inversion E; subst;
    repeat match goal with
    | H : In _ [] |- _ => destruct H
    | H : In _ (_ :: _) |- _ => destruct H as [<- | H]
    end; try (cbn; lia);
    match goal with H : _ = _ ++ _ :: _ |- _ =>
      try (destruct pre; discriminate H) end.
Defined.

End TranscriptFacts.

(** ** Base64, continued *)

Module Base64Facts.
Import JS Base64.
Local Open Scope N_scope.

Lemma padding_step (a b c : N) r : padding (a :: b :: c :: r) = padding r.
Proof.
  unfold padding; cbn [List.length].
  replace (N.of_nat (S (S (S (List.length r)))) mod 3)
    with (N.of_nat (List.length r) mod 3); [reflexivity|].
  zify; Z.to_euclidean_division_equations; lia.
Qed.

Lemma encoded_length l :
  (List.length (sextets l) + List.length (padding l)
   = 4 * ((List.length l + 2) / 3))%nat.
Proof.
  induction l as [| a | a b | a b c r IH] using list_ind3;
    try reflexivity.
  rewrite padding_step; cbn [sextets List.length].
  replace ((S (S (S (List.length r))) + 2) / 3)%nat
    with (S ((List.length r + 2) / 3)).
  - lia.
  - replace (S (S (S (List.length r))) + 2)%nat
      with (1 * 3 + (List.length r + 2))%nat by lia.
    rewrite Nat.div_add_l by lia; reflexivity.
Qed.

Definition base64_char (c : code_unit) : Prop :=
  alphabet_index c <> None \/ c = equals_sign.

Lemma encoded_shape (bytes : Uint8Array) :
    exists base64,
      encodeBase64 bytes = Some base64
      /\ List.length base64 = (4 * ((List.length bytes + 2) / 3))%nat
      /\ Forall base64_char base64.
Proof.
  unfold encodeBase64; rewrite binary_string.
  set (s := map fromCharCode bytes).
  assert (Hb : Forall is_byte s).
  { apply Forall_forall; intros c Hc; apply in_map_iff in Hc.
    destruct Hc as [b [<- _]]; apply fromCharCode_byte. }
  assert (Hall : forallb (fun c => c <=? 255) s = true).
  { apply forallb_forall; intros c Hc.
    rewrite Forall_forall in Hb; specialize (Hb c Hc).
    unfold is_byte in Hb; apply N.leb_le; lia. }
  unfold btoa; rewrite Hall; eexists; split; [reflexivity|]; split.
  - rewrite length_app, length_map, encoded_length.
    subst s; rewrite length_map; reflexivity.
  - apply Forall_app; split.
    + pose proof (sextets_bound Hb) as Hs.
      induction Hs as [|n ss Hn _ IH]; constructor; [|exact IH].
      left; rewrite (alphabet_index_alphabet Hn); discriminate.
    + unfold padding.
      destruct (N.of_nat (@List.length N s) mod 3) as [|[p|[p|p|]|]];
        repeat constructor; right; reflexivity.
Qed.

(** X6.  Encoding always succeeds; for [n] bytes the string has
    4 * ceil(n / 3) characters, each a letter, digit, [+], [/] or [=]. *)
Theorem encodeBase64_shape :
  forall bytes : Uint8Array,
    exists base64,
      encodeBase64 bytes = Some base64
      /\ List.length base64 = (4 * ((List.length bytes + 2) / 3))%nat
      /\ Forall base64_char base64.
Proof. exact encoded_shape. Qed.

(** X7.  Two byte arrays that encode to the same string are equal. *)
Theorem encodeBase64_injective :
  forall a b : Uint8Array, encodeBase64 a = encodeBase64 b -> a = b.
Proof.
  intros a b E.
  destruct (base64_round_trip a) as [ea [Ha Da]].
  destruct (base64_round_trip b) as [eb [Hb Db]].
  rewrite Ha, Hb in E; injection E as ->; congruence.
Qed.

Lemma encodeBase64_injective_witness :
  [Byte.x4d; Byte.x61] = [Byte.x4d; Byte.x61].
Proof. apply encodeBase64_injective; reflexivity. Defined.

Lemma strip_padding_keeps c data :
  In c data -> c <> equals_sign -> In c (strip_padding data).
Proof.
  intros Hin Hne; unfold strip_padding.
  apply in_rev in Hin.
  destruct (rev data) as [|c1 r1] eqn:E; [destruct Hin|].
  destruct (N.eqb_spec c1 equals_sign) as [E1|_].
  - destruct Hin as [<- | Hin]; [contradiction|].
    destruct r1 as [|c2 r2]; [destruct Hin|].
    destruct (N.eqb_spec c2 equals_sign) as [E2|_].
    + destruct Hin as [<- | Hin]; [contradiction|].
      apply in_rev; rewrite rev_involutive; exact Hin.
    + apply in_rev; rewrite rev_involutive; exact Hin.
  - apply in_rev; rewrite E; exact Hin.
Qed.

Lemma indices_foreign c data :
  In c data -> alphabet_index c = None -> indices data = None.
Proof.
  induction data as [|d r IH]; intros Hin Hc; [destruct Hin|].
  cbn [indices]; destruct Hin as [-> | Hin].
  - rewrite Hc; reflexivity.
  - rewrite (IH Hin Hc); destruct (alphabet_index d); reflexivity.
Qed.

(** X8.  A string with a character that is neither ASCII whitespace, nor in
    the base64 alphabet, nor [=], is refused: [decodeBase64] throws. *)
Theorem decodeBase64_rejects_foreign_character :
  forall data c,
    In c data ->
    isAsciiWhitespace c = false ->
    alphabet_index c = None ->
    c <> equals_sign ->
    decodeBase64 data = None.
Proof.
  intros data c Hin Hws Hal Hne; unfold decodeBase64, atob.
  set (d1 := filter (fun c => negb (isAsciiWhitespace c)) data).
  assert (H1 : In c d1)
    by (apply filter_In; split; [exact Hin | rewrite Hws; reflexivity]).
  set (d2 := if N.of_nat (List.length d1) mod 4 =? 0
             then strip_padding d1 else d1).
  assert (H2 : In c d2).
  { subst d2; destruct (N.of_nat (List.length d1) mod 4 =? 0);
      [apply strip_padding_keeps; assumption | exact H1]. }
  destruct (N.of_nat (List.length d2) mod 4 =? 1); [reflexivity|].
  rewrite (indices_foreign c d2 H2 Hal); reflexivity.
Qed.

Lemma decodeBase64_rejects_witness : decodeBase64 (js "TW-u") = None.
Proof.
  apply (@decodeBase64_rejects_foreign_character (js "TW-u") 45);
    [right; right; left; reflexivity | reflexivity | reflexivity | discriminate].
Defined.

End Base64Facts.

(** ** Audio helpers, continued *)

Module AudioFacts.
Import JS Base64 Numeric Audio.

Definition int16 (v : Z) : Prop := (-32768 <= v <= 32767)%Z.

Lemma wrap16_range t : int16 (wrap16 t).
Proof.
  unfold int16, wrap16.
  destruct (Z.leb_spec 32768 (t mod 65536));
    Z.to_euclidean_division_equations; lia.
Qed.

Lemma list_ind2 (A : Type) (P : list A -> Prop) :
  P [] -> (forall a, P [a]) -> (forall a b r, P r -> P (a :: b :: r)) ->
  forall l, P l.
Proof.
  intros H0 H1 H2.
  fix IH 1; intros [|a [|b r]];
    [exact H0 | exact (H1 a) | exact (H2 a b r (IH r))].
Qed.

Lemma int16_bytes_of_pair lo hi :
  int16_bytes (wrap16 (Z.of_N (Byte.to_N lo) + 256 * Z.of_N (Byte.to_N hi)))
  = [lo; hi].
Proof.
  pose proof (Byte.to_N_bounded lo) as Hl.
  pose proof (Byte.to_N_bounded hi) as Hh.
  set (l := Z.of_N (Byte.to_N lo)); set (h := Z.of_N (Byte.to_N hi)).
  assert (Bl : (0 <= l <= 255)%Z) by (subst l; lia).
  assert (Bh : (0 <= h <= 255)%Z) by (subst h; lia).
  assert (E1 : (wrap16 (l + 256 * h) mod 256 = l)%Z).
  { unfold wrap16; destruct (Z.leb_spec 32768 ((l + 256 * h) mod 65536));
      Z.to_euclidean_division_equations; lia. }
  assert (E2 : ((wrap16 (l + 256 * h) / 256) mod 256 = h)%Z).
  { unfold wrap16; destruct (Z.leb_spec 32768 ((l + 256 * h) mod 65536));
      Z.to_euclidean_division_equations; lia. }
  unfold int16_bytes; rewrite E1, E2; subst l h; rewrite !N2Z.id.
  change (Byte.to_N lo) with (fromCharCode lo);
    change (Byte.to_N hi) with (fromCharCode hi).
  rewrite !ToUint8_fromCharCode; reflexivity.
Qed.

(** The [Int16Array] view of a buffer: it exists exactly for an even number
    of bytes, has half as many elements, each a 16-bit integer, and holds
    the bytes without loss. *)
Lemma Int16Array_view bytes :
  match Int16Array_of_buffer bytes with
  | Some vs =>
      List.length bytes = (2 * List.length vs)%nat
      /\ flat_map int16_bytes vs = bytes
      /\ Forall int16 vs
  | None => exists m, List.length bytes = (2 * m + 1)%nat
  end.
Proof.
  induction bytes as [| a | lo hi r IH] using list_ind2.
  - repeat split; constructor.
  - exists 0%nat; reflexivity.
  - cbn [Int16Array_of_buffer].
    destruct (Int16Array_of_buffer r) as [vs|].
    + destruct IH as [Hlen [Hb Hr]]; repeat split.
      * cbn [List.length]; lia.
      * cbn [flat_map]; rewrite int16_bytes_of_pair, Hb; reflexivity.
      * constructor; [apply wrap16_range | exact Hr].
    + destruct IH as [m Hm]; exists (S m); cbn [List.length]; lia.
Qed.

(** X9.  The [Int16Array] view loses nothing: writing its elements back as
    little-endian byte pairs gives the buffer it was taken from. *)
Theorem Int16Array_bytes_round_trip :
  forall bytes vs,
    Int16Array_of_buffer bytes = Some vs ->
    flat_map int16_bytes vs = bytes /\ Forall int16 vs.
Proof.
  intros bytes vs H; pose proof (Int16Array_view bytes) as V.
  rewrite H in V; destruct V as [_ [Hb Hr]]; split; assumption.
Qed.

Lemma Int16Array_bytes_round_trip_witness :
  flat_map int16_bytes [8191; -32768]%Z
  = [Byte.xff; Byte.x1f; Byte.x00; Byte.x80]
  /\ Forall int16 [8191; -32768]%Z.
Proof.
  apply (@Int16Array_bytes_round_trip
           [Byte.xff; Byte.x1f; Byte.x00; Byte.x80]); reflexivity.
Defined.

Section AnyArithmetic.
Context {num : Type} {number : Number num}.

(** X10.  [decodeAudioData] succeeds exactly on a non-empty buffer of even
    length; the audio buffer then has one frame per two bytes and the sample
    rate it was given.  An empty buffer or one of odd length makes it
    throw. *)
Theorem decodeAudioData_outcome :
  forall (bytes : Uint8Array) (rate : num),
    match decodeAudioData bytes rate with
    | Some buffer =>
        bytes <> []
        /\ List.length bytes = (2 * List.length (channelData buffer))%nat
        /\ sampleRate buffer = rate
    | None =>
        bytes = [] \/ exists m, List.length bytes = (2 * m + 1)%nat
    end.
Proof.
  intros bytes rate; unfold decodeAudioData.
  pose proof (Int16Array_view bytes) as V.
  destruct (Int16Array_of_buffer bytes) as [[|v vs]|].
  - left; destruct V as [Hlen _]; destruct bytes; [reflexivity|discriminate].
  - destruct V as [Hlen _]; cbn [channelData sampleRate]; repeat split.
    + intros ->; discriminate Hlen.
    + rewrite length_map; exact Hlen.
  - right; exact V.
Qed.

Lemma createPcmBlob_payload (samples : Float32Array (num := num)) :
  exists blob,
    createPcmBlob samples = Some blob
    /\ mimeType blob = js "audio/pcm;rate=16000"
    /\ decodeBase64 (data blob)
       = Some (flat_map int16_bytes (map pcm16 samples))
    /\ List.length (data blob)
       = (4 * ((2 * List.length samples + 2) / 3))%nat.
Proof.
  unfold createPcmBlob.
  set (bytes := flat_map int16_bytes (map pcm16 samples)).
  assert (Hlen : List.length bytes = (2 * List.length samples)%nat).
  { subst bytes; induction samples as [|x r IH]; [reflexivity|].
    cbn [map flat_map]; rewrite length_app, IH; cbn [int16_bytes List.length].
    lia. }
  destruct (Base64Facts.encoded_shape bytes) as [e [He [Hl _]]].
  destruct (base64_round_trip bytes) as [e' [He' Hd]].
  rewrite He in He'; injection He' as <-.
  rewrite He; eexists; split; [reflexivity|].
  cbn [data mimeType]; repeat split; [exact Hd|].
  rewrite Hl, Hlen; reflexivity.
Qed.

(** X11.  In any arithmetic, and whatever the samples are, [createPcmBlob]
    returns a chunk tagged [audio/pcm;rate=16000] whose payload decodes to
    two bytes per sample and is 4 * ceil(2n / 3) characters long. *)
Theorem createPcmBlob_always_two_bytes_per_sample :
  forall samples : Float32Array (num := num),
    exists blob bytes,
      createPcmBlob samples = Some blob
      /\ mimeType blob = js "audio/pcm;rate=16000"
      /\ decodeBase64 (data blob) = Some bytes
      /\ List.length bytes = (2 * List.length samples)%nat
      /\ List.length (data blob)
         = (4 * ((2 * List.length samples + 2) / 3))%nat.
Proof.
  intro samples.
  destruct (createPcmBlob_payload samples) as [blob [Hb [Hm [Hd Hl]]]].
  exists blob; eexists; repeat split; try eassumption.
  clear; induction samples as [|x r IH]; [reflexivity|].
  cbn [map flat_map]; rewrite length_app, IH; cbn [int16_bytes List.length].
  lia.
Qed.

End AnyArithmetic.


End AudioFacts.

(** ** Audio helpers in exact arithmetic, continued *)

Module AudioExactFacts.
Import JS Base64 Numeric Numeric.Exact Audio.
Local Open Scope Q_scope.

Lemma inject_Z_le z k : (z <= k)%Z -> inject_Z z <= inject_Z k.
Proof. rewrite <- Zle_Qle; auto. Qed.

(** X13.  Every sample [decodeAudioData] produces lies between -1 and
    32767/32768. *)
Theorem decoded_samples_in_range :
  forall (bytes : Uint8Array) (rate : Q) buffer,
    decodeAudioData bytes rate = Some buffer ->
    Forall (fun x => -1 <= x <= 32767 # 32768) (channelData buffer).
Proof.
  intros bytes rate buffer H; unfold decodeAudioData in H.
  pose proof (AudioFacts.Int16Array_view bytes) as V.
  destruct (Int16Array_of_buffer bytes) as [vs|]; [|discriminate].
  assert (E : channelData buffer
              = map (fun v => fround (ofZ v / ofZ 32768)%js) vs)
    by (destruct vs; [discriminate | injection H as <-; reflexivity]).
  rewrite E; clear E H.
  destruct V as [_ [_ Hr]].
  apply Forall_forall; intros x Hx; apply in_map_iff in Hx.
  destruct Hx as [w [<- Hw]].
  rewrite Forall_forall in Hr; specialize (Hr w Hw).
  cbn [fround div ofZ exact]; change (inject_Z 32768) with 32768.
  rewrite Qdiv_32768.
  destruct Hr as [Hlo Hhi].
  apply inject_Z_le in Hlo; apply inject_Z_le in Hhi.
  change (inject_Z (-32768)) with (-32768) in Hlo.
  change (inject_Z 32767) with 32767 in Hhi.
  split; lra.
Qed.

Lemma decoded_samples_in_range_witness :
  Forall (fun x => -1 <= x <= 32767 # 32768)
    (channelData
       {| sampleRate := 24000;
          channelData := [inject_Z 8191 / 32768; inject_Z (-32768) / 32768] |}).
Proof.
  apply (@decoded_samples_in_range
           [Byte.xff; Byte.x1f; Byte.x00; Byte.x80] 24000).
  reflexivity.
Defined.

Lemma clamp_monotone s t : s <= t -> clamp s <= clamp t.
Proof.
  intro H; unfold clamp.
  destruct (Qlt_le_dec s (-1)), (Qlt_le_dec t (-1)); try lra;
    destruct (Qlt_le_dec 1 s), (Qlt_le_dec 1 t); lra.
Qed.

Lemma truncated_pcm16_monotone s t :
  s <= t -> (truncated_pcm16 s <= truncated_pcm16 t)%Z.
Proof.
  intro H; apply clamp_monotone in H; unfold truncated_pcm16.
  destruct (Qlt_le_dec (clamp s) 0) as [Hs|Hs],
           (Qlt_le_dec (clamp t) 0) as [Ht|Ht].
  - rewrite !Qtrunc_neg by lra; apply Qceiling_resp_le; lra.
  - rewrite Qtrunc_neg, Qtrunc_nonneg by lra.
    transitivity 0%Z.
    + change 0%Z with (Qceiling 0); apply Qceiling_resp_le; lra.
    + change 0%Z with (Qfloor 0); apply Qfloor_resp_le; lra.
  - lra.
  - rewrite !Qtrunc_nonneg by lra; apply Qfloor_resp_le; lra.
Qed.

(** X16.  The conversion to 16-bit samples keeps the order of samples and
    saturates: a larger sample never gets a smaller integer, every sample of
    1 or more becomes 32767, every sample of -1 or less becomes -32768, and
    zero stays zero. *)
Theorem pcm16_monotone_and_saturating :
  (forall s t : Q, s <= t -> (pcm16 s <= pcm16 t)%Z)
  /\ (forall s : Q, 1 <= s -> pcm16 s = 32767%Z)
  /\ (forall s : Q, s <= -1 -> pcm16 s = (-32768)%Z)
  /\ (forall s : Q, s == 0 -> pcm16 s = 0%Z).
Proof.
  repeat split; intros.
  - rewrite !pcm16_truncated; apply truncated_pcm16_monotone; assumption.
  - rewrite pcm16_truncated; unfold truncated_pcm16, clamp.
    destruct (Qlt_le_dec s (-1)); [lra|].
    destruct (Qlt_le_dec 1 s) as [H1|H1].
    + destruct (Qlt_le_dec 1 0); [lra | reflexivity].
    + destruct (Qlt_le_dec s 0); [lra|].
      transitivity (Qtrunc 32767); [apply Qtrunc_comp; lra | reflexivity].
  - rewrite pcm16_truncated; unfold truncated_pcm16, clamp.
    destruct (Qlt_le_dec s (-1)) as [H1|H1].
    + destruct (Qlt_le_dec (-1) 0); [reflexivity | lra].
    + destruct (Qlt_le_dec 1 s); [lra|].
      destruct (Qlt_le_dec s 0); [|lra].
      transitivity (Qtrunc (-32768)); [apply Qtrunc_comp; lra | reflexivity].
  - rewrite pcm16_truncated; unfold truncated_pcm16, clamp.
    destruct (Qlt_le_dec s (-1)); [lra|].
    destruct (Qlt_le_dec 1 s); [lra|].
    destruct (Qlt_le_dec s 0); [lra|].
    transitivity (Qtrunc 0); [apply Qtrunc_comp; lra | reflexivity].
Qed.

Lemma pcm16_monotone_witness : (pcm16 (-1 # 3) <= pcm16 (1 # 4))%Z.
Proof.
  apply (proj1 pcm16_monotone_and_saturating); discriminate.
Defined.

(** *** Resampling *)

Definition newLength (len : nat) (ratio : Q) : nat :=
  Z.to_nat (Qceiling (inject_Z (Z.of_nat len) / ratio)).

(** Above 16000 Hz the function returns the loop's values for the indices
    below the exact new length. *)
Lemma downsampleTo16k_elements (input : list Q) (R : Q) :
  (Z.of_nat (List.length input) <= max_safe_integer)%Z ->
  16000 < R ->
  downsampleTo16k input R
  = Some (map (interpolate input (R / 16000))
              (seq 0 (newLength (List.length input) (R / 16000)))).
Proof.
  intros Hmax HR.
  destruct (downsampleTo16k_exact_length input Hmax HR) as [out [Hout Hlen]].
  rewrite Hout; f_equal.
  assert (Hne : (R === ofZ 16000)%js = false).
  { destruct (R === ofZ 16000)%js eqn:E; [|reflexivity].
    apply Qeq_bool_iff in E; cbn [ofZ exact] in E.
    change (inject_Z 16000) with 16000 in E; lra. }
  unfold downsampleTo16k in Hout; rewrite Hne in Hout.
  destruct (ToIndex _) as [n|]; [|discriminate].
  injection Hout as <-.
  rewrite length_map, length_seq in Hlen; rewrite Hlen; reflexivity.
Qed.








Lemma floor_of_integer (z : Z) (p : Q) : p == inject_Z z -> Qfloor p = z.
Proof. intro E; rewrite (Qfloor_comp _ _ E); apply Qfloor_Z. Qed.

Lemma asIndex_floor_integer (z : Z) (p : Q) :
  (0 <= z)%Z -> p == inject_Z z ->
  asIndex (Math_floor p) = Some (Z.to_nat z).
Proof.
  intros Hz E; cbn [asIndex Math_floor exact].
  rewrite (floor_of_integer E), Qfloor_Z.
  assert (E1 : Qeq_bool (inject_Z z) (inject_Z z) = true)
    by (apply Qeq_bool_iff; reflexivity).
  assert (E2 : Qle_bool 0 (inject_Z z) = true)
    by (apply Qle_bool_iff, inject_Z_nonneg, Hz).
  rewrite E1, E2; reflexivity.
Qed.

Lemma interpolate_at_integer (input : list Q) (ratio : Q) (i j : nat) (x : Q) :
  (ofZ (Z.of_nat i) * ratio)%js == inject_Z (Z.of_nat j) ->
  nth_error input j = Some x ->
  interpolate input ratio i == x.
Proof.
  intros Ep Ex; unfold interpolate; cbn [fround exact].
  set (p := (ofZ (Z.of_nat i) * ratio)%js) in *.
  pose proof (asIndex_floor_integer (Nat2Z.is_nonneg j) Ep) as Hk.
  rewrite Nat2Z.id in Hk.
  assert (Hv : element_or input (Math_floor p) (ofZ 0) == x).
  { unfold element_or; rewrite Hk, Ex; cbn [falsy ofZ exact].
    destruct (Qeq_bool x 0) eqn:E0; [|reflexivity].
    apply Qeq_bool_iff in E0; rewrite E0; reflexivity. }
  set (val1 := element_or input (Math_floor p) (ofZ 0)) in *.
  set (val2 := element_or input (Math_floor p + ofZ 1)%js val1).
  assert (Hf : (p - Math_floor p)%js == 0).
  { cbn [sub Math_floor exact]; rewrite (floor_of_integer Ep), Ep; ring. }
  set (frac := (p - Math_floor p)%js) in *.
  cbn [add sub mul ofZ exact]; change (inject_Z 1) with 1.
  rewrite Hf, Hv; ring.
Qed.

Lemma downsampleTo16k_decimates (input : list Q) (m : positive) (R : Q) :
  (Z.of_nat (List.length input) <= max_safe_integer)%Z ->
  (1 < m)%positive ->
  R == 16000 * inject_Z (Zpos m) ->
  exists out,
    downsampleTo16k input R = Some out
    /\ (forall i, (i < List.length out)%nat
                  <-> (i * Pos.to_nat m < List.length input)%nat)
    /\ (forall i y, nth_error out i = Some y ->
           exists x, nth_error input (i * Pos.to_nat m) = Some x /\ y == x).
Proof.
  intros Hmax Hm HR.
  assert (HM : 2 <= inject_Z (Zpos m))
    by (change 2 with (inject_Z 2); apply inject_Z_le; lia).
  assert (HR' : 16000 < R) by lra.
  assert (Hratio : R / 16000 == inject_Z (Zpos m)) by (rewrite HR; field).
  assert (Hpos : 0 < R / 16000) by lra.
  assert (Hp : forall i : nat,
    (ofZ (Z.of_nat i) * (R / 16000)%Q)%js
    == inject_Z (Z.of_nat (i * Pos.to_nat m))).
  { intro i; cbn [mul ofZ exact].
    rewrite Hratio, <- inject_Z_mult.
    rewrite Nat2Z.inj_mul, positive_nat_Z; reflexivity. }
  assert (Hlen : forall i,
    (i < newLength (List.length input) (R / 16000))%nat
    <-> (i * Pos.to_nat m < List.length input)%nat).
  { intro i; split; intro Hi.
    - destruct (@floor_index_in_range (List.length input) (R / 16000) i Hpos Hi)
        as [k [Hk Hklt]].
      rewrite (asIndex_floor_integer (Nat2Z.is_nonneg _) (Hp i)) in Hk.
      rewrite Nat2Z.id in Hk; injection Hk as <-; exact Hklt.
    - unfold newLength.
      assert (H1 : inject_Z (Z.of_nat (i * Pos.to_nat m))
                   < inject_Z (Z.of_nat (List.length input)))
        by (rewrite <- Zlt_Qlt; lia).
      rewrite <- (Hp i) in H1; cbn [mul ofZ exact] in H1.
      apply Qlt_shift_div_l in H1; [|exact Hpos].
      pose proof (Qle_ceiling (inject_Z (Z.of_nat (List.length input))
                               / (R / 16000))) as H2.
      assert (H3 : (Z.of_nat i
                    < Qceiling (inject_Z (Z.of_nat (List.length input))
                                / (R / 16000)))%Z)
        by (rewrite Zlt_Qlt; lra).
      lia. }
  rewrite (downsampleTo16k_elements input Hmax HR').
  eexists; split; [reflexivity|]; split.
  - intro i; rewrite length_map, length_seq; apply Hlen.
  - intros i y Hy.
    assert (Hi : (i < newLength (List.length input) (R / 16000))%nat).
    { assert (Hs : nth_error
                     (map (interpolate input (R / 16000))
                        (seq 0 (newLength (List.length input) (R / 16000)))) i
                   <> None) by congruence.
      apply nth_error_Some in Hs.
      rewrite length_map, length_seq in Hs; exact Hs. }
    rewrite nth_error_map, nth_error_seq in Hy.
    destruct (Nat.ltb_spec i (newLength (List.length input) (R / 16000)));
      [|lia].
    cbn [option_map Nat.add] in Hy; injection Hy as <-.
    apply Hlen in Hi.
    destruct (nth_error input (i * Pos.to_nat m)) as [x|] eqn:Ex;
      [|apply nth_error_None in Ex; lia].
    exists x; split; [reflexivity|].
    apply (@interpolate_at_integer input (R / 16000)%Q i
             (i * Pos.to_nat m) x (Hp i) Ex).
Qed.

(** X15.  At an input rate that is a whole multiple [m >= 2] of 16000 Hz
    the resampler decimates: output sample [i] is input sample [m * i], and
    an output index exists exactly when [m * i] is an index of the input. *)
Theorem downsampleTo16k_integer_ratio_decimates :
  forall (input : Float32Array (num := Q)) (m : positive) (R : Q),
    (Z.of_nat (List.length input) <= max_safe_integer)%Z ->
    (1 < m)%positive ->
    R == 16000 * inject_Z (Zpos m) ->
    exists out,
      downsampleTo16k input R = Some out
      /\ (forall i, (i < List.length out)%nat
                    <-> (i * Pos.to_nat m < List.length input)%nat)
      /\ (forall i y, nth_error out i = Some y ->
             exists x, nth_error input (i * Pos.to_nat m) = Some x /\ y == x).
Proof. exact downsampleTo16k_decimates. Qed.

Lemma downsampleTo16k_decimates_witness :
  exists out,
    downsampleTo16k [1; 2; 0; 4; 5; 0; 7] 48000 = Some out
    /\ (forall i, (i < List.length out)%nat <-> (i * 3 < 7)%nat)
    /\ (forall i y, nth_error out i = Some y ->
           exists x, nth_error [1; 2; 0; 4; 5; 0; 7] (i * 3) = Some x
                     /\ y == x).
Proof.
  apply (@downsampleTo16k_integer_ratio_decimates
           [1; 2; 0; 4; 5; 0; 7] 3 48000).
  - vm_compute; discriminate.
  - reflexivity.
  - reflexivity.
Defined.

End AudioExactFacts.

(** ** The message handler, continued *)

Module LiveClientFacts.
Import JS Base64 Numeric Numeric.Exact Audio LiveClient.
Local Open Scope Q_scope.

(** The effects of a message that carries no interruption, up to its
    [await]: transcript callbacks and error logs only. *)
Definition transcript_or_log (e : Effect) : Prop :=
  match e with
  | onTranscriptUpdate _ _ _ | console_error => True
  | _ => False
  end.

Lemma receive_uninterrupted content c :
  interrupted content = false ->
  let '(c', es, _) := receive (Some content) c in
  Forall transcript_or_log es
  /\ nextStartTime c' = nextStartTime c
  /\ scheduledSources c' = scheduledSources c
  /\ created c' = created c
  /\ audioContext c' = audioContext c.
Proof.
  intro H; unfold receive; rewrite H.
  unfold transcriptions, completion, decoding.
  destruct (inputTranscription content), (outputTranscription content),
    (turnComplete content), (audioData content) as [d|];
    cbn [set_input set_output currentInputTranscription
         currentOutputTranscription audioContext];
    repeat match goal with
    | |- context [if ?b then _ else _] => destruct b
    | |- context [match decodeBase64 ?d with _ => _ end] =>
        destruct (decodeBase64 d)
    | |- context [match decodeAudioData ?x ?r with _ => _ end] =>
        destruct (decodeAudioData x r)
    end; cbn; repeat split; repeat constructor.
Qed.

Definition no_stop (e : Effect) : Prop :=
  match e with stop _ => False | _ => True end.

Lemma step_no_stop ev c :
  uninterrupted ev -> Forall no_stop (snd (step ev c)).
Proof.
  destruct ev as [[content|] | now [b|] | s]; cbn [uninterrupted step];
    intro H.
  - pose proof (receive_uninterrupted content c H) as R.
    destruct (receive (Some content) c) as [[c' es] p]; cbn [snd].
    destruct R as [R _]; eapply Forall_impl; [|exact R].
    intros [] He; try exact I; destruct He.
  - constructor.
  - unfold resume.
    destruct (Math_max now (nextStartTime c) <? ofZ 0)%js;
      repeat constructor.
  - repeat constructor.
  - constructor.
Qed.

(** X17.  Nothing but an interruption stops playback: over any series of
    events without an interrupted message (messages, continuations, sources
    ending, at any times) no [stop] is ever called. *)
Theorem only_interruption_stops_sources :
  forall evs c,
    Forall uninterrupted evs ->
    Forall no_stop (snd (run_events evs c)).
Proof.
  induction evs as [|ev evs IH]; intros c H; [constructor|].
  inversion H as [|? ? Hu Hr]; subst; cbn [run_events].
  pose proof (step_no_stop ev c Hu) as H1.
  destruct (step ev c) as [c1 e1]; cbn [snd] in H1.
  specialize (IH c1 Hr).
  destruct (run_events evs c1) as [c2 e2]; cbn [snd] in *.
  apply Forall_app; split; assumption.
Qed.

Lemma only_interruption_stops_witness :
  Forall no_stop
    (snd (run_events [Resume 1 (resolved chunk);
                      Receive (Some (delta "jour")); Ended 5] speaking)).
Proof.
  apply only_interruption_stops_sources; repeat constructor.
Defined.

(** *** What the client keeps true of its playback state *)

Definition playback_ok (c : GeminiLiveClient) : Prop :=
  NoDup (scheduledSources c)
  /\ Forall (fun s => (s < created c)%nat) (scheduledSources c)
  /\ 0 <= nextStartTime c.

(** Decoded buffers carry a positive sample rate (the handler passes
    24000). *)
Definition well_formed (ev : Event) : Prop :=
  match ev with
  | Resume _ (resolved b) => 0 < sampleRate b
  | _ => True
  end.

Lemma duration_nonneg (b : AudioBuffer (num := Q)) :
  0 < sampleRate b -> 0 <= duration b.
Proof.
  intro H; unfold duration; cbn [div ofZ exact].
  apply Qle_shift_div_l; [exact H|].
  assert (0 <= inject_Z (Z.of_nat (List.length (channelData b))))
    by (apply inject_Z_nonneg; lia).
  lra.
Qed.

Lemma resume_playback_ok now b c :
  playback_ok c -> 0 < sampleRate b ->
  resume now (resolved b) c
  = ({| audioContext := audioContext c;
        currentInputTranscription := currentInputTranscription c;
        currentOutputTranscription := currentOutputTranscription c;
        nextStartTime :=
          (Math_max now (nextStartTime c) + duration b)%js;
        scheduledSources := scheduledSources c ++ [created c];
        created := S (created c) |},
     [onAudioVisualizer (meanSquare (channelData b));
      start (created c) (Math_max now (nextStartTime c)) b])
  /\ 0 <= Math_max now (nextStartTime c)
  /\ playback_ok (fst (resume now (resolved b) c)).
Proof.
  intros [Hnd [Hlt Hclock]] Hrate.
  destruct (Math_max_bounds now (nextStartTime c)) as [_ Hb].
  assert (H0 : 0 <= Math_max now (nextStartTime c)) by lra.
  assert (E : (Math_max now (nextStartTime c) <? ofZ 0)%js = false)
    by (apply Qltb_false_iff; change (ofZ 0) with 0; exact H0).
  unfold resume; rewrite E; split; [reflexivity|]; split; [exact H0|].
  cbn [fst]; unfold playback_ok;
    cbn [scheduledSources created nextStartTime]; repeat split.
  - apply NoDup_app; [exact Hnd | repeat constructor; intros [] |].
    intros s Hs [<- | []].
    rewrite Forall_forall in Hlt; specialize (Hlt _ Hs); lia.
  - apply Forall_app; split.
    + eapply Forall_impl; [|exact Hlt]; intros; cbn in *; lia.
    + repeat constructor.
  - pose proof (duration_nonneg b Hrate); cbn [add exact]; lra.
Qed.

Lemma step_playback_ok ev c :
  playback_ok c -> well_formed ev -> playback_ok (fst (step ev c)).
Proof.
  intros Hok Hwf.
  destruct ev as [[content|] | now [b|] | s]; cbn [step].
  - destruct (interrupted content) eqn:Hi.
    + unfold receive; rewrite Hi; unfold playback_ok.
      cbn [interrupt fst scheduledSources created nextStartTime].
      repeat split; [constructor | constructor | lra].
    + pose proof (receive_uninterrupted content c Hi) as R.
      destruct (receive (Some content) c) as [[c' es] p]; cbn [fst].
      destruct R as [_ [R1 [R2 [R3 _]]]].
      unfold playback_ok; rewrite R1, R2, R3; exact Hok.
  - exact Hok.
  - apply resume_playback_ok; assumption.
  - exact Hok.
  - destruct Hok as [Hnd [Hlt Hclock]]; cbn [fst]; unfold playback_ok, ended;
      cbn [scheduledSources created nextStartTime]; repeat split.
    + apply NoDup_filter, Hnd.
    + apply Forall_forall; intros x Hx; apply filter_In in Hx.
      rewrite Forall_forall in Hlt; apply Hlt, Hx.
    + exact Hclock.
Qed.

Definition decoded_chunks (evs : list Event) : nat :=
  List.length (filter (fun ev => match ev with
                                 | Resume _ (resolved _) => true
                                 | _ => false
                                 end) evs).

Definition starts (es : list Effect) : nat :=
  List.length (filter (fun e => match e with
                                | start _ _ _ => true
                                | _ => false
                                end) es).

Lemma starts_app es es' : starts (es ++ es') = (starts es + starts es')%nat.
Proof. unfold starts; rewrite filter_app, length_app; reflexivity. Qed.

Lemma run_playback_ok evs : forall c,
  playback_ok c -> Forall well_formed evs ->
  playback_ok (fst (run_events evs c))
  /\ Forall (fun e => match e with start _ t _ => 0 <= t | _ => True end)
       (snd (run_events evs c))
  /\ starts (snd (run_events evs c)) = decoded_chunks evs.
Proof.
  induction evs as [|ev evs IH]; intros c Hok Hwf.
  - split; [exact Hok | split; [constructor | reflexivity]].
  - inversion Hwf as [|? ? Hw Hr]; subst; cbn [run_events].
    pose proof (@step_playback_ok ev c Hok Hw) as H1.
    assert (H2 : Forall (fun e => match e with
                                  | start _ t _ => 0 <= t
                                  | _ => True
                                  end) (snd (step ev c))
                 /\ starts (snd (step ev c)) = decoded_chunks [ev]).
    { destruct ev as [[content|] | now [b|] | s]; cbn [step].
      - destruct (interrupted content) eqn:Hi.
        + unfold receive; rewrite Hi; cbn [interrupt snd]; split.
          * apply Forall_forall; intros e He; apply in_map_iff in He.
            destruct He as [x [<- _]]; exact I.
          * unfold starts; induction (scheduledSources c); [reflexivity|].
            cbn [map filter]; assumption.
        + pose proof (receive_uninterrupted content c Hi) as R.
          destruct (receive (Some content) c) as [[c' es] p]; cbn [snd].
          destruct R as [R _]; split.
          * eapply Forall_impl; [|exact R]; intros [] He; try exact I;
              destruct He.
          * unfold starts; induction R as [|e es He _ IHes]; [reflexivity|].
            destruct e; try destruct He; cbn [filter]; exact IHes.
      - split; [constructor | reflexivity].
      - destruct (@resume_playback_ok now b c Hok Hw) as [E [H0 _]].
        rewrite E; cbn [snd]; split; [repeat constructor; exact H0|].
        reflexivity.
      - split; [repeat constructor | reflexivity].
      - split; [constructor | reflexivity]. }
    destruct (step ev c) as [c1 e1]; cbn [fst snd] in *.
    destruct (IH c1 H1 Hr) as [I1 [I2 I3]].
    destruct (run_events evs c1) as [c2 e2]; cbn [fst snd] in *.
    destruct H2 as [H2 H3]; split; [|split].
    + exact I1.
    + apply Forall_app; split; assumption.
    + rewrite starts_app, H3, I3.
      unfold decoded_chunks; cbn [filter].
      destruct ev as [m | now [b|] | s]; reflexivity.
Qed.

(** X18.  From a client whose tracked sources are distinct, were created by
    it, and whose [nextStartTime] is not negative (the initial client is
    one), every series of events keeps it so; every decoded chunk is
    started, at a non-negative time whatever the clock reading, so
    [source.start] never throws. *)
Theorem playback_state_stays_sound :
  forall evs c,
    playback_ok c -> Forall well_formed evs ->
    playback_ok (fst (run_events evs c))
    /\ Forall (fun e => match e with start _ t _ => 0 <= t | _ => True end)
         (snd (run_events evs c))
    /\ starts (snd (run_events evs c)) = decoded_chunks evs.
Proof. exact run_playback_ok. Qed.

Lemma playback_state_witness :
  playback_ok
    (fst (run_events [Resume (-1) (resolved chunk);
                      Receive (Some barge_in);
                      Resume 2 (resolved chunk); Ended 0] Session.idle))
  /\ Forall (fun e => match e with start _ t _ => 0 <= t | _ => True end)
       (snd (run_events [Resume (-1) (resolved chunk);
                         Receive (Some barge_in);
                         Resume 2 (resolved chunk); Ended 0] Session.idle))
  /\ starts (snd (run_events [Resume (-1) (resolved chunk);
                              Receive (Some barge_in);
                              Resume 2 (resolved chunk); Ended 0] Session.idle))
     = decoded_chunks [Resume (-1) (resolved chunk);
                       Receive (Some barge_in);
                       Resume 2 (resolved chunk); Ended 0].
Proof.
  apply playback_state_stays_sound.
  - repeat split; [constructor | constructor | discriminate].
  - repeat constructor.
Defined.

(** *** Transcription deltas and turn completion *)

(** A message that carries one transcription delta and nothing else. *)
Definition transcription_delta (isUser : bool) (t : jsstring) : ServerContent :=
  {| interrupted := false;
     inputTranscription := if isUser then Some {| text := Some t |} else None;
     outputTranscription := if isUser then None else Some {| text := Some t |};
     turnComplete := false;
     audioData := None |}.

Definition accumulator (isUser : bool) (c : GeminiLiveClient) : jsstring :=
  if isUser then currentInputTranscription c
  else currentOutputTranscription c.

(** The text so far after each of the deltas [ts], starting from [acc]. *)
Fixpoint running (acc : jsstring) (ts : list jsstring) : list jsstring :=
  match ts with
  | [] => []
  | t :: r => (acc ++ t) :: running (acc ++ t) r
  end.

Lemma deltas_accumulate isUser ts : forall now c,
  let '(c', es) :=
    fold_left (fun '(c, es) t =>
                 let '(c', e) :=
                   handleOnMessage now (Some (transcription_delta isUser t)) c
                 in (c', es ++ e))
              ts (c, []) in
  accumulator isUser c' = accumulator isUser c ++ List.concat ts
  /\ accumulator (negb isUser) c' = accumulator (negb isUser) c
  /\ es = map (fun s => onTranscriptUpdate s isUser false)
             (running (accumulator isUser c) ts).
Proof.
  intros now.
  assert (G : forall c es0,
    let '(c', es) :=
      fold_left (fun '(c, es) t =>
                   let '(c', e) :=
                     handleOnMessage now (Some (transcription_delta isUser t)) c
                   in (c', es ++ e))
                ts (c, es0) in
    accumulator isUser c' = accumulator isUser c ++ List.concat ts
    /\ accumulator (negb isUser) c' = accumulator (negb isUser) c
    /\ es = es0 ++ map (fun s => onTranscriptUpdate s isUser false)
                     (running (accumulator isUser c) ts)).
  { induction ts as [|t r IH]; intros c es0; cbn [fold_left].
    - rewrite !app_nil_r; repeat split.
    - set (c1 := if isUser
                 then set_input c (currentInputTranscription c ++ t)
                 else set_output c (currentOutputTranscription c ++ t)).
      assert (E : handleOnMessage now (Some (transcription_delta isUser t)) c
                  = (c1, [onTranscriptUpdate (accumulator isUser c ++ t)
                            isUser false]))
        by (subst c1; destruct isUser; reflexivity).
      rewrite E; specialize (IH c1 (es0 ++ [onTranscriptUpdate
                                 (accumulator isUser c ++ t) isUser false])).
      destruct (fold_left _ r _) as [c' es].
      destruct IH as [I1 [I2 I3]].
      assert (A1 : accumulator isUser c1 = accumulator isUser c ++ t)
        by (subst c1; destruct isUser; reflexivity).
      assert (A2 : accumulator (negb isUser) c1 = accumulator (negb isUser) c)
        by (subst c1; destruct isUser; reflexivity).
      rewrite A1 in I1, I3; rewrite A2 in I2.
      cbn [List.concat running map]; repeat split.
      + rewrite I1, <- app_assoc; reflexivity.
      + exact I2.
      + rewrite I3, <- app_assoc; reflexivity. }
  intro c; specialize (G c []).
  destruct (fold_left _ ts _) as [c' es]; exact G.
Qed.

(** X19.  Transcription deltas accumulate in arrival order: after the
    deltas [ts] of one speaker, that speaker's accumulator is its former
    content followed by all of them, the other accumulator is untouched, and
    each delta has emitted one incomplete update carrying the whole text so
    far. *)
Theorem transcription_deltas_accumulate :
  forall isUser ts now c,
    let '(c', es) :=
      fold_left (fun '(c, es) t =>
                   let '(c', e) :=
                     handleOnMessage now (Some (transcription_delta isUser t)) c
                   in (c', es ++ e))
                ts (c, []) in
    accumulator isUser c' = accumulator isUser c ++ List.concat ts
    /\ accumulator (negb isUser) c' = accumulator (negb isUser) c
    /\ es = map (fun s => onTranscriptUpdate s isUser false)
               (running (accumulator isUser c) ts).
Proof. exact deltas_accumulate. Qed.







Definition turn_end : ServerContent :=
  {| interrupted := false;
     inputTranscription := None;
     outputTranscription := None;
     turnComplete := true;
     audioData := None |}.

Definition whispering : GeminiLiveClient :=
  {| audioContext := true;
     currentInputTranscription := js " ";
     currentOutputTranscription := js "bon";
     nextStartTime := 0;
     scheduledSources := [];
     created := 0 |}.


(** The blank accumulator survives the turn: the next delta is appended
    to it. *)
Example whitespace_survives_turn_completion :
  let '(c1, _) := handleOnMessage 0 (Some turn_end) whispering in
  snd (handleOnMessage 0 (Some (transcription_delta true (js "hi"))) c1)
  = [onTranscriptUpdate (js " hi") true false].
Proof. reflexivity. Qed.

(** *** Audio that does not decode *)

Definition without_audio (content : ServerContent) : ServerContent :=
  {| interrupted := interrupted content;
     inputTranscription := inputTranscription content;
     outputTranscription := outputTranscription content;
     turnComplete := turnComplete content;
     audioData := None |}.

Definition undecodable (d : jsstring) : Prop :=
  decodeBase64 d = None
  \/ exists bytes,
       decodeBase64 d = Some bytes
       /\ decodeAudioData (number := exact) bytes (ofZ 24000) = None.

Lemma receive_without_audio content c :
  interrupted content = false ->
  forall c' es p,
    receive (Some content) c = (c', es, p) ->
    exists es0,
      receive (Some (without_audio content)) c = (c', es0, None)
      /\ es = es0 ++ fst (decoding content c')
      /\ p = snd (decoding content c')
      /\ audioContext c' = audioContext c.
Proof.
  intros Hi c' es p; unfold receive; cbn [without_audio interrupted].
  rewrite Hi.
  change (transcriptions (without_audio content) c)
    with (transcriptions content c).
  pose proof (receive_uninterrupted content c Hi) as R.
  unfold receive in R; rewrite Hi in R.
  destruct (transcriptions content c) as [c1 e2].
  change (completion (without_audio content) c1)
    with (completion content c1).
  destruct (completion content c1) as [c2 e3].
  change (decoding (without_audio content) c2)
    with (@nil Effect, @None Pending).
  destruct (decoding content c2) as [e4 p'] eqn:Ed.
  destruct R as [_ [_ [_ [_ Ra]]]].
  intro E; injection E as <- <- <-.
  exists (e2 ++ e3 ++ []); rewrite Ed; cbn [fst snd].
  repeat split; [|exact Ra].
  rewrite !app_nil_r, app_assoc; reflexivity.
Qed.

(** X21.  Audio that fails to decode is contained: when the payload is not
    valid base64, or decodes to an odd or zero number of bytes, the message
    does exactly what it would do without audio, followed by one logged
    error; nothing is scheduled, and the playback state is untouched.  An
    empty payload, or a client without audio context, is ignored without a
    log. *)
Theorem undecodable_audio_is_contained :
  forall now content c d,
    interrupted content = false ->
    audioData content = Some d ->
    let '(c0, es0) := handleOnMessage now (Some (without_audio content)) c in
    (truthy d = true -> audioContext c = true -> undecodable d ->
     handleOnMessage now (Some content) c = (c0, es0 ++ [console_error]))
    /\ (truthy d = false \/ audioContext c = false ->
        handleOnMessage now (Some content) c = (c0, es0)).
Proof.
  intros now content c d Hi Ha.
  unfold handleOnMessage.
  destruct (receive (Some content) c) as [[c' es] p] eqn:E.
  destruct (receive_without_audio content c Hi E) as [es0 [E0 [Hes [Hp Hc]]]].
  rewrite E0; subst es p.
  unfold decoding; rewrite Ha, Hc; split.
  - intros Hd Hctx Hun; rewrite Hd, Hctx; cbn [andb].
    destruct Hun as [-> | [bytes [-> Hb]]]; cbn [fst snd].
    + reflexivity.
    + rewrite Hb; cbn [fst snd resume]; rewrite app_nil_r; reflexivity.
  - intros [Hd | Hctx].
    + rewrite Hd; cbn [andb fst snd]; rewrite app_nil_r; reflexivity.
    + rewrite Hctx, andb_false_r; cbn [fst snd].
      rewrite app_nil_r; reflexivity.
Qed.

Lemma undecodable_audio_witness :
  let content := {| interrupted := false;
                    inputTranscription := Some {| text := Some (js "hi") |};
                    outputTranscription := None;
                    turnComplete := false;
                    audioData := Some (js "/x8A") |} in
  let '(c0, es0) := handleOnMessage 1 (Some (without_audio content)) speaking in
  (truthy (js "/x8A") = true -> audioContext speaking = true ->
   undecodable (js "/x8A") ->
   handleOnMessage 1 (Some content) speaking = (c0, es0 ++ [console_error]))
  /\ (truthy (js "/x8A") = false \/ audioContext speaking = false ->
      handleOnMessage 1 (Some content) speaking = (c0, es0)).
Proof.
  apply (@undecodable_audio_is_contained 1
           {| interrupted := false;
              inputTranscription := Some {| text := Some (js "hi") |};
              outputTranscription := None;
              turnComplete := false;
              audioData := Some (js "/x8A") |} speaking (js "/x8A"));
    reflexivity.
Defined.

(** Three bytes are no whole number of 16-bit samples. *)
Example odd_payload_is_undecodable : undecodable (js "/x8A").
Proof. right; eexists; split; reflexivity. Qed.

End LiveClientFacts.

(** ** The life of a session: [connect], [disconnect], the App's toggle *)

Module Lifecycle.
Import JS Numeric Numeric.Exact Audio LiveClient.

(** The whole client object: the fields [handleOnMessage] works on, and
    the handles that [connect] and [handleOnOpen] acquire (whether each is
    non-null; for the stream, its number of tracks). *)
Record Client := {
  fields : GeminiLiveClient;
  session : bool;
  inputSource : bool;
  processor : bool;
  stream : option nat
}.

(** What the life-cycle methods do to the outside. *)
Inductive Call :=
| session_close
| processor_disconnect
| inputSource_disconnect
| audioContext_close
| track_stop (track : nat)
| source_stop (source : nat)
| onClose
| onError (message : jsstring)
| console_log
| log_error.

Definition with_fields (o : Client) (c : GeminiLiveClient) : Client :=
  {| fields := c;
     session := session o;
     inputSource := inputSource o;
     processor := processor o;
     stream := stream o |}.

(** [this.scheduledSources.clear()] *)
Definition cleared (c : GeminiLiveClient) : GeminiLiveClient :=
  {| audioContext := audioContext c;
     currentInputTranscription := currentInputTranscription c;
     currentOutputTranscription := currentOutputTranscription c;
     nextStartTime := nextStartTime c;
     scheduledSources := [];
     created := created c |}.

(** [disconnect]; [close_throws] says whether [session.close()] throws,
    which is caught and logged.  No handle is set back to [null]. *)
Definition disconnect (close_throws : bool) (o : Client)
  : Client * list Call :=
  let c := fields o in
  (with_fields o (cleared c),
   (if session o
    then session_close :: (if close_throws then [log_error] else [])
    else [])
   ++ (if processor o then [processor_disconnect] else [])
   ++ (if inputSource o then [inputSource_disconnect] else [])
   ++ (if audioContext c then [audioContext_close] else [])
   ++ match stream o with
      | Some tracks => map track_stop (seq 0 tracks)
      | None => []
      end
   ++ map source_stop (scheduledSources c)
   ++ [onClose]).

Definition handleOnClose (close_throws : bool) (o : Client)
  : Client * list Call :=
  let '(o, calls) := disconnect close_throws o in
  (o, console_log :: calls).

Definition handleOnError (close_throws : bool) (o : Client)
  : Client * list Call :=
  let '(o, calls) := disconnect close_throws o in
  (o, log_error :: onError (js "Connection error occurred.") :: calls).

(** The three ways a session ends. *)
Inductive Ending := by_user | by_close | by_error.

Definition finish (how : Ending) : bool -> Client -> Client * list Call :=
  match how with
  | by_user => disconnect
  | by_close => handleOnClose
  | by_error => handleOnError
  end.

(** A promise that has settled; a rejection carries the [message] of its
    error. *)
Inductive Settled (A : Type) :=
| fulfilled (value : A)
| rejects (message : jsstring).
Arguments fulfilled {A} value.
Arguments rejects {A} message.

(** What [connect] meets: the outcome of [getUserMedia] (a stream, given
    by its number of tracks) and of [live.connect]. *)
Record Environment := {
  getUserMedia : Settled nat;
  live_connect : Settled unit
}.

Definition acquired (o : Client) (tracks : nat) : Client :=
  {| fields :=
       {| audioContext := true;
          currentInputTranscription := currentInputTranscription (fields o);
          currentOutputTranscription := currentOutputTranscription (fields o);
          nextStartTime := nextStartTime (fields o);
          scheduledSources := scheduledSources (fields o);
          created := created (fields o) |};
     session := session o;
     inputSource := inputSource o;
     processor := processor o;
     stream := Some tracks |}.

Definition with_session (o : Client) : Client :=
  {| fields := fields o;
     session := true;
     inputSource := inputSource o;
     processor := processor o;
     stream := stream o |}.

(** [connect]: every failure is caught and handed to [onError]; the
    promise of [connect] itself is always fulfilled. *)
Definition connect (env : Environment) (o : Client) : Client * list Call :=
  match getUserMedia env with
  | rejects m => (o, [onError m])
  | fulfilled tracks =>
      let o := acquired o tracks in
      match live_connect env with
      | rejects m => (o, [onError m])
      | fulfilled _ => (with_session o, [])
      end
  end.

(** [new GeminiLiveClient(config)] *)
Definition constructed : Client :=
  {| fields :=
       {| audioContext := false;
          currentInputTranscription := [];
          currentOutputTranscription := [];
          nextStartTime := 0;
          scheduledSources := [];
          created := 0 |};
     session := false;
     inputSource := false;
     processor := false;
     stream := None |}.

(** The state of the App that [toggleConnection] and the client's
    [onClose] and [onError] callbacks work on. *)
Record App := {
  isConnected : bool;
  volume : Q;
  error : option jsstring;
  clientRef : option Client
}.

Definition setIsConnected (b : bool) (app : App) : App :=
  {| isConnected := b; volume := volume app;
     error := error app; clientRef := clientRef app |}.

Definition setVolume (v : Q) (app : App) : App :=
  {| isConnected := isConnected app; volume := v;
     error := error app; clientRef := clientRef app |}.

Definition setError (e : option jsstring) (app : App) : App :=
  {| isConnected := isConnected app; volume := volume app;
     error := e; clientRef := clientRef app |}.

Definition setClientRef (o : option Client) (app : App) : App :=
  {| isConnected := isConnected app; volume := volume app;
     error := error app; clientRef := o |}.

(** The [onClose] and [onError] callbacks that the App hands to the
    client. *)
Definition notify (app : App) (call : Call) : App :=
  match call with
  | onClose => setVolume 0 (setIsConnected false app)
  | onError m => setIsConnected false (setError (Some m) app)
  | _ => app
  end.

(** [!process.env.API_KEY] *)
Definition missing (API_KEY : option jsstring) : bool :=
  match API_KEY with
  | Some k => negb (truthy k)
  | None => true
  end.

Definition toggleConnection (API_KEY : option jsstring) (env : Environment)
    (close_throws : bool) (app : App) : App * list Call :=
  if isConnected app then
    let '(ref, calls) :=
      match clientRef app with
      | Some o =>
          let '(o, calls) := disconnect close_throws o in (Some o, calls)
      | None => (None, [])
      end in
    let app := fold_left notify calls (setClientRef ref app) in
    (setVolume 0 (setIsConnected false app), calls)
  else
    let app := setError None app in
    if missing API_KEY then
      (setError (Some (js "API Key not found in environment variables.")) app,
       [])
    else
      let '(o, calls) := connect env constructed in
      let app := fold_left notify calls (setClientRef (Some o) app) in
      (setIsConnected true app, calls).

End Lifecycle.

Module LifecycleFacts.
Import JS Numeric Numeric.Exact Audio LiveClient Lifecycle.

(** *** No source outlives the session *)




Definition housekeeping (call : Call) : Prop :=
  match call with
  | onClose | onError _ => False
  | _ => True
  end.

(** The calls of [disconnect] but the last, which is [onClose]. *)
Definition teardown (close_throws : bool) (o : Client) : list Call :=
  (if session o
   then session_close :: (if close_throws then [log_error] else [])
   else [])
  ++ (if processor o then [processor_disconnect] else [])
  ++ (if inputSource o then [inputSource_disconnect] else [])
  ++ (if audioContext (fields o) then [audioContext_close] else [])
  ++ match stream o with
     | Some tracks => map track_stop (seq 0 tracks)
     | None => []
     end
  ++ map source_stop (scheduledSources (fields o)).

Lemma disconnect_teardown close_throws o :
  disconnect close_throws o
  = (with_fields o (cleared (fields o)), teardown close_throws o ++ [onClose]).
Proof.
  unfold disconnect, teardown; rewrite <- !app_assoc; reflexivity.
Qed.

Lemma teardown_housekeeping close_throws o :
  Forall housekeeping (teardown close_throws o).
Proof.
  unfold teardown; repeat (apply Forall_app; split).
  - destruct (session o), close_throws; repeat constructor.
  - destruct (processor o); repeat constructor.
  - destruct (inputSource o); repeat constructor.
  - destruct (audioContext (fields o)); repeat constructor.
  - destruct (stream o); [|constructor].
    apply Forall_forall; intros x Hx; apply in_map_iff in Hx.
    destruct Hx as [i [<- _]]; exact I.
  - apply Forall_forall; intros x Hx; apply in_map_iff in Hx.
    destruct Hx as [i [<- _]]; exact I.
Qed.


(** What comes before [disconnect] in each way of ending. *)
Definition preamble (how : Ending) : list Call :=
  match how with
  | by_user => []
  | by_close => [console_log]
  | by_error => [log_error; onError (js "Connection error occurred.")]
  end.

Lemma finish_calls how close_throws o :
  finish how close_throws o
  = (with_fields o (cleared (fields o)),
     preamble how ++ teardown close_throws o ++ [onClose]).
Proof.
  destruct how; cbn [finish preamble]; unfold handleOnClose, handleOnError;
    rewrite disconnect_teardown; reflexivity.
Qed.



(** Two sources are playing when the session fails. *)
Example failing_session_stops_what_plays :
  snd (finish by_error false
         {| fields := fst (run_events [Resume 0 (resolved chunk);
                                       Resume 0 (resolved chunk)]
                             Session.idle);
            session := true; inputSource := true; processor := true;
            stream := Some 1%nat |})
  = [log_error; onError (js "Connection error occurred.");
     session_close; processor_disconnect; inputSource_disconnect;
     audioContext_close; track_stop 0; source_stop 0; source_stop 1;
     onClose].
Proof. reflexivity. Qed.

(** *** What the App shows *)

Lemma notify_housekeeping calls : forall app,
  Forall housekeeping calls -> fold_left notify calls app = app.
Proof.
  induction calls as [|d calls IH]; intros app H; [reflexivity|].
  inversion H as [|? ? Hd Hr]; subst; cbn [fold_left].
  destruct d; try destruct Hd; apply IH, Hr.
Qed.

Lemma notify_finish how close_throws o app :
  let app' := fold_left notify (snd (finish how close_throws o)) app in
  isConnected app' = false
  /\ volume app' = 0%Q
  /\ clientRef app' = clientRef app
  /\ error app'
     = match how with
       | by_error => Some (js "Connection error occurred.")
       | _ => error app
       end.
Proof.
  rewrite finish_calls; cbn [snd].
  rewrite !fold_left_app.
  assert (E : forall a,
    fold_left notify [onClose]
      (fold_left notify (teardown close_throws o) a)
    = setVolume 0 (setIsConnected false a)).
  { intro a.
    rewrite (@notify_housekeeping (teardown close_throws o) a)
      by apply teardown_housekeeping.
    reflexivity. }
  cbv zeta; rewrite E; destruct how; cbn; repeat split.
Qed.

(** X23.  However a session ends (the user disconnects, the session
    closes or fails, whether or not closing throws), the callbacks leave
    the App disconnected with the volume at zero; the error shown is left
    as it was, except after a session error, where it is the fixed
    connection-error message. *)
Theorem ended_session_shows_disconnected :
  forall how close_throws o app,
    let app' := fold_left notify (snd (finish how close_throws o)) app in
    isConnected app' = false
    /\ volume app' = 0%Q
    /\ clientRef app' = clientRef app
    /\ error app'
       = match how with
         | by_error => Some (js "Connection error occurred.")
         | _ => error app
         end.
Proof. exact notify_finish. Qed.





Definition launched : App :=
  {| isConnected := false; volume := 0; error := None; clientRef := None |}.

Definition refused : Environment :=
  {| getUserMedia := rejects (js "Permission denied");
     live_connect := fulfilled tt |}.


(** The microphone was refused, and the App shows itself connected. *)
Example refused_microphone_shows_connected :
  let app := fst (toggleConnection (Some (js "k")) refused false launched) in
  isConnected app = true /\ error app = Some (js "Permission denied").
Proof. split; reflexivity. Qed.





End LifecycleFacts.
